(** * GoDeployer: a shallow embedding of the polling file watcher and of the
    deploy supervisor, with the properties of their specification.

    Conventions of the embedding.
    - Go maps are [gmap string _]; a [for k, v := range m] loop is a left fold
      over an enumeration of [m] in an arbitrary order ([RangeOrder]).
    - [filepath.Walk] is seen through the sequence of callback invocations it
      makes ([WalkEntry]); the walk stops at the first callback error.
    - Operating-system calls answer through an explicit record ([OS]); the
      calls a function performs are collected in a trace ([Action]).
    - The mutex of the supervisor is not modelled: [Kill] and [Deploy] hold
      it from entry to return, so each is one atomic state transformer.
    - Logging ([log.Printf], [fmt.Println]) is left out, except the
      per-subscriber notification line, kept as the delivery record. *)

From stdpp Require Import gmap strings list fin_maps.
From Stdlib Require Import ZArith Ascii String.

Open Scope string_scope.
Open Scope list_scope.
Open Scope Z_scope.

(** ** Go values *)

(** A Go [error] value, by its message. *)
Definition error := string.

(** The line feed that ends the messages of the configuration loader. *)
Definition newline : string := String (Ascii.ascii_of_nat 10) EmptyString.

(** [time.Time]: an instant and the location it is displayed in. *)
Record Time := { instant : Z; zone : string }.

(** [t.Equal(u)]: same instant, whatever the locations. *)
Definition Time_Equal (t u : Time) : bool := bool_decide (instant t = instant u).

(** The zero value of [time.Time]. *)
Definition Time_zero : Time := {| instant := 0; zone := "" |}.

(** [fs.FileMode]: permission bits, and [ModeDir] for directories. *)
Definition FileMode := Z.
Definition ModeDir : FileMode := Z.shiftl 1 31.

(** [os.FileInfo], as far as the program reads it. *)
Record FileInfo := {
  info_IsDir : bool;
  info_Mode : FileMode;
  info_Size : Z;
  info_ModTime : Time
}.

(** One invocation [fn(path, info, err)] made by [filepath.Walk]. *)
Record WalkEntry := {
  w_path : string;
  w_info : FileInfo;
  w_err : option error
}.

(** [filepath.Walk]: the callback runs on each entry in turn; the first
    error it returns ends the walk and is the result. *)
Fixpoint Walk {S : Type} (entries : list WalkEntry)
    (fn : WalkEntry → S → S * option error) (s : S) : S * option error :=
  match entries with
  | [] => (s, None)
  | e :: rest =>
      match fn e s with
      | (s', None) => Walk rest fn s'
      | (s', Some err) => (s', Some err)
      end
  end.

(** The order in which a [range] loop enumerates a map: any order. *)
Record RangeOrder := {
  range : ∀ {A : Type}, gmap string A → list (string * A);
  range_perm : ∀ (A : Type) (m : gmap string A), range m ≡ₚ map_to_list m
}.

Definition range_canonical : RangeOrder :=
  {| range := λ A m, map_to_list m;
     range_perm := λ A m, reflexivity (map_to_list m) |}.

Definition range_reversed : RangeOrder :=
  {| range := λ A m, reverse (map_to_list m);
     range_perm := λ A m, reverse_Permutation (map_to_list m) |}.

(** ** The file watcher *)

Record FileChangeEvent := {
  RelPath : string;
  FullPath : string;
  ChangeType : string;
  Size : Z;
  ModTime : Time
}.

Record FileState := {
  st_ModTime : Time;
  st_Size : Z
}.

Global Instance Time_eq_dec : EqDecision Time.
Proof. solve_decision. Defined.
Global Instance FileState_eq_dec : EqDecision FileState.
Proof. solve_decision. Defined.
Global Instance FileChangeEvent_eq_dec : EqDecision FileChangeEvent.
Proof. solve_decision. Defined.

Section watcher.
(** What the subscribers act on. *)
Context {W : Type}.
(** [filepath.Rel(base, target)]; [None] when it returns an error. *)
Variable Rel : string → string → option string.
(** The enumeration orders of the [range] loops. *)
Variable ro : RangeOrder.

Definition FileChangeHandler := FileChangeEvent → W → W.

Record FileWatcher := {
  Path : string;
  Interval : Z;
  subscribers : list FileChangeHandler
}.

Definition NewFileWatcher (path : string) (interval : Z) : FileWatcher :=
  {| Path := path; Interval := interval; subscribers := [] |}.

Definition SetPath (fw : FileWatcher) (path : string) : FileWatcher :=
  {| Path := path; Interval := Interval fw; subscribers := subscribers fw |}.

Definition Subscribe (fw : FileWatcher) (handler : FileChangeHandler) : FileWatcher :=
  {| Path := Path fw; Interval := Interval fw;
     subscribers := subscribers fw ++ [handler] |}.

(** The bus during one scan: the subscribers' world, the events passed to
    [Notify], and the handler invocations (subscriber number, event). *)
Record Bus := {
  world : W;
  notified : list FileChangeEvent;
  delivered : list (nat * FileChangeEvent)
}.

Definition call_handler (event : FileChangeEvent) (b : Bus)
    (ih : nat * FileChangeHandler) : Bus :=
  {| world := ih.2 event (world b);
     notified := notified b;
     delivered := delivered b ++ [(S ih.1, event)] |}.

Definition Notify (fw : FileWatcher) (event : FileChangeEvent) (b : Bus) : Bus :=
  foldl (call_handler event)
    {| world := world b; notified := notified b ++ [event]; delivered := delivered b |}
    (imap pair (subscribers fw)).

Definition state_changed (oldState state : FileState) : bool :=
  negb (Time_Equal (st_ModTime oldState) (st_ModTime state))
  || negb (bool_decide (st_Size oldState = st_Size state)).

(** The callback of the walk in [scanFiles]. *)
Definition visit (fw : FileWatcher) (sharePath : string)
    (knownFiles : gmap string FileState) (isInitial : bool)
    (e : WalkEntry) (s : gmap string FileState * Bus)
    : (gmap string FileState * Bus) * option error :=
  let '(currentFiles, b) := s in
  match w_err e with
  | Some _ => (s, None)
  | None =>
      let info := w_info e in
      if info_IsDir info then (s, None)
      else
        match Rel sharePath (w_path e) with
        | None => (s, None)
        | Some relPath =>
            let state := {| st_ModTime := info_ModTime info; st_Size := info_Size info |} in
            let currentFiles := <[relPath := state]> currentFiles in
            match knownFiles !! relPath with
            | Some oldState =>
                if state_changed oldState state then
                  (currentFiles,
                   Notify fw {| ChangeType := "modified"; RelPath := relPath;
                                FullPath := w_path e; Size := info_Size info;
                                ModTime := info_ModTime info |} b, None)
                else (currentFiles, b, None)
            | None =>
                if negb isInitial then
                  (currentFiles,
                   Notify fw {| ChangeType := "created"; RelPath := relPath;
                                FullPath := w_path e; Size := info_Size info;
                                ModTime := info_ModTime info |} b, None)
                else (currentFiles, b, None)
            end
        end
  end.

(** The event of a deleted path: only the relative path is set. *)
Definition deleted_event (relPath : string) : FileChangeEvent :=
  {| ChangeType := "deleted"; RelPath := relPath; FullPath := "";
     Size := 0; ModTime := Time_zero |}.

Definition check_deleted (fw : FileWatcher) (currentFiles : gmap string FileState)
    (b : Bus) (kv : string * FileState) : Bus :=
  match currentFiles !! kv.1 with
  | Some _ => b
  | None => Notify fw (deleted_event kv.1) b
  end.

Definition update_known (knownFiles : gmap string FileState)
    (kv : string * FileState) : gmap string FileState :=
  <[kv.1 := kv.2]> knownFiles.

Definition remove_deleted (currentFiles knownFiles : gmap string FileState)
    (kv : string * FileState) : gmap string FileState :=
  match currentFiles !! kv.1 with
  | Some _ => knownFiles
  | None => delete kv.1 knownFiles
  end.

(** What one scan leaves: the stored snapshot and the bus. *)
Record ScanResult := {
  known : gmap string FileState;
  current : gmap string FileState;
  bus : Bus
}.

Definition scanFiles (fw : FileWatcher) (listing : list WalkEntry)
    (sharePath : string) (knownFiles : gmap string FileState)
    (isInitial : bool) (w : W) : ScanResult :=
  let b0 := {| world := w; notified := []; delivered := [] |} in
  let '(currentFiles, b1, err) :=
    Walk listing (visit fw sharePath knownFiles isInitial) (∅, b0) in
  let b2 :=
    if negb isInitial
    then foldl (check_deleted fw currentFiles) b1 (range ro knownFiles)
    else b1 in
  let knownFiles := foldl update_known knownFiles (range ro currentFiles) in
  let knownFiles :=
    foldl (remove_deleted currentFiles) knownFiles (range ro knownFiles) in
  {| known := knownFiles; current := currentFiles; bus := b2 |}.

(** [pollloop]: the initial scan on an empty map, then one scan per tick;
    [ticks] holds the listings of the ticks observed so far. *)
Record PollState := {
  poll_known : gmap string FileState;
  poll_world : W;
  poll_events : list (list FileChangeEvent)
}.

Definition poll_scan (fw : FileWatcher) (isInitial : bool) (p : PollState)
    (listing : list WalkEntry) : PollState :=
  let r := scanFiles fw listing (Path fw) (poll_known p) isInitial (poll_world p) in
  {| poll_known := known r; poll_world := world (bus r);
     poll_events := poll_events p ++ [notified (bus r)] |}.

Definition pollloop (fw : FileWatcher) (initial : list WalkEntry)
    (ticks : list (list WalkEntry)) (w : W) : PollState :=
  let knownFiles : gmap string FileState := ∅ in
  let p := poll_scan fw true
             {| poll_known := knownFiles; poll_world := w; poll_events := [] |}
             initial in
  foldl (poll_scan fw false) p ticks.

(** *** Derived notions used to state the properties of a scan *)

(** The entry as [visit] records it: relative path and state, for an entry
    without error that is not a directory and whose path [Rel] accepts. *)
Definition scan_entry (sharePath : string) (e : WalkEntry)
    : option (string * FileState) :=
  match w_err e with
  | Some _ => None
  | None =>
      if info_IsDir (w_info e) then None
      else
        match Rel sharePath (w_path e) with
        | None => None
        | Some relPath =>
            Some (relPath, {| st_ModTime := info_ModTime (w_info e);
                              st_Size := info_Size (w_info e) |})
        end
  end.

(** The relative paths the walk records, in the order of the walk. *)
Definition scanned_paths (sharePath : string) (listing : list WalkEntry)
    : list string :=
  (omap (scan_entry sharePath) listing).*1.

(** The snapshot a walk builds from the empty map. *)
Definition snapshot_of (sharePath : string) (listing : list WalkEntry)
    : gmap string FileState :=
  foldl update_known ∅ (omap (scan_entry sharePath) listing).

Definition modified_event (relPath fullPath : string) (state : FileState)
    : FileChangeEvent :=
  {| ChangeType := "modified"; RelPath := relPath; FullPath := fullPath;
     Size := st_Size state; ModTime := st_ModTime state |}.

Definition created_event (relPath fullPath : string) (state : FileState)
    : FileChangeEvent :=
  {| ChangeType := "created"; RelPath := relPath; FullPath := fullPath;
     Size := st_Size state; ModTime := st_ModTime state |}.

(** The events [visit] passes to [Notify] at one recorded entry. *)
Definition entry_events (knownFiles : gmap string FileState) (isInitial : bool)
    (fullPath : string) (x : string * FileState) : list FileChangeEvent :=
  match knownFiles !! x.1 with
  | Some oldState =>
      if state_changed oldState x.2 then [modified_event x.1 fullPath x.2] else []
  | None =>
      if negb isInitial then [created_event x.1 fullPath x.2] else []
  end.

Definition walk_events (sharePath : string) (knownFiles : gmap string FileState)
    (isInitial : bool) (listing : list WalkEntry) : list FileChangeEvent :=
  flat_map (λ e, match scan_entry sharePath e with
                 | Some x => entry_events knownFiles isInitial (w_path e) x
                 | None => []
                 end) listing.

Definition deleted_events (currentFiles : gmap string FileState)
    (l : list (string * FileState)) : list FileChangeEvent :=
  omap (λ kv, match currentFiles !! kv.1 with
              | Some _ => None
              | None => Some (deleted_event kv.1)
              end) l.

Definition notify_all (fw : FileWatcher) (events : list FileChangeEvent) (b : Bus)
    : Bus :=
  foldl (λ b event, Notify fw event b) b events.

(** The handler invocations one event causes. *)
Definition deliveries (fw : FileWatcher) (event : FileChangeEvent)
    : list (nat * FileChangeEvent) :=
  (λ ih : nat * FileChangeHandler, (S ih.1, event)) <$> imap pair (subscribers fw).

End watcher.

(** ** Lexical path operations (path/filepath on a Unix system) *)

Module filepath.

(** [strings.Split(path, "/")]. *)
Fixpoint elements (path : string) : list string :=
  match path with
  | EmptyString => [""]
  | String c rest =>
      if Ascii.eqb c "/"%char then "" :: elements rest
      else match elements rest with
           | x :: xs => String c x :: xs
           | [] => [String c ""]
           end
  end.

Definition rooted (path : string) : bool :=
  match path with
  | String c _ => Ascii.eqb c "/"%char
  | EmptyString => false
  end.

(** One element of the path against the elements written so far (last
    written first): empty and [.] elements are dropped, [..] removes the
    last real element, or is kept in front of a path that is not rooted. *)
Definition clean_step (is_rooted : bool) (out : list string) (elem : string)
    : list string :=
  if bool_decide (elem = "") || bool_decide (elem = ".") then out
  else if bool_decide (elem = "..") then
    match out with
    | last :: before =>
        if bool_decide (last = "..") then elem :: out else before
    | [] => if is_rooted then [] else [elem]
    end
  else elem :: out.

(** [filepath.Clean]. *)
Definition Clean (path : string) : string :=
  let out := foldl (clean_step (rooted path)) [] (elements path) in
  let body := String.concat "/" (reverse out) in
  if rooted path then "/" +:+ body
  else if bool_decide (body = "") then "." else body.

(** [filepath.Join]: the elements from the first one that is not empty,
    separated by slashes and cleaned; the empty string if there is none. *)
Fixpoint Join (elem : list string) : string :=
  match elem with
  | [] => ""
  | e :: rest =>
      if bool_decide (e = "") then Join rest
      else Clean (String.concat "/" elem)
  end.

Fixpoint strip_prefix (prefix s : string) : option string :=
  match prefix, s with
  | EmptyString, _ => Some s
  | String a prefix', String b s' =>
      if Ascii.eqb a b then strip_prefix prefix' s' else None
  | String _ _, EmptyString => None
  end.

(** [filepath.Rel(basepath, targpath)] for a clean target that is the clean
    base or lies below it, as [filepath.Walk] produces them; an error
    otherwise. Below the base [.] a relative target is its own answer, and
    below the root the target loses its leading slash. It instantiates the
    parameter [Rel] in concrete runs. *)
Definition Rel_under (basepath targpath : string) : option string :=
  if String.eqb basepath targpath then Some "."
  else if String.eqb basepath "." then
    if rooted targpath then None else Some targpath
  else if String.eqb basepath "/" then strip_prefix "/" targpath
  else strip_prefix (basepath +:+ "/") targpath.

(** [filepath.Base]: the last element of the path, trailing slashes apart;
    a dot for the empty path and a slash for a path of slashes only. *)
Definition Base (path : string) : string :=
  if bool_decide (path = "") then "."
  else match filter (λ elem, elem ≠ "") (elements path) with
       | [] => "/"
       | elem :: elems => List.last elems elem
       end.

(** [strings.HasPrefix(s, prefix)]. *)
Definition HasPrefix (s prefix : string) : bool := String.prefix prefix s.

(** Is the relative [path] the directory [dir] or a path below it, element
    by element? (The test that [isSourceFile] does not make.) *)
Definition inside (dir path : string) : bool :=
  bool_decide (Clean dir = ".")
  || bool_decide (elements (Clean dir) `prefix_of` elements (Clean path)).

End filepath.

(** ** The deploy supervisor (deployer.go) *)

Definition CONFIG_ID : string := "deploy.json".

Definition Millisecond : Z := 1000000.
Definition Second : Z := 1000 * Millisecond.

(** The permission constants of the source, written there in octal. *)
Definition perm_0644 : FileMode := 6 * 64 + 4 * 8 + 4.
Definition perm_0755 : FileMode := 7 * 64 + 5 * 8 + 5.

Inductive result (A : Type) : Type :=
  | Ok (a : A)
  | Err (e : error).
Arguments Ok {A} a.
Arguments Err {A} e.

(** A call that may panic. *)
Inductive outcome (A : Type) : Type :=
  | Returned (a : A)
  | Panicked (msg : string).
Arguments Returned {A} a.
Arguments Panicked {A} msg.

Record DeployConfig := {
  DeployLocation : string;
  Executable : string;
  Args : list string;
  SourceLocation : string;
  EnvironmentVariables : list string
}.

Inductive Signal := SIGTERM.
Inductive Stream := dev_null | os_Stdout | os_Stderr.

(** [os.Process] and [exec.Cmd]. *)
Record Process := { Pid : Z }.

Record Cmd := {
  cmd_Path : string;
  cmd_Args : list string;
  cmd_Dir : string;
  cmd_Env : list string;
  cmd_Stdout : Stream;
  cmd_Stderr : Stream;
  cmd_Process : option Process
}.

(** [exec.Command(name, arg...)]. A name that is its own base (it has no
    directory part) is looked up in the search path, [LookPath] giving the
    path found and an error if any; a path found replaces the name in
    [Path]. The error the command keeps for [Start] is part of what
    [cmd_Start] answers. *)
Definition Command (LookPath : string → string * option error)
    (name : string) (arg : list string) : Cmd :=
  let path :=
    if bool_decide (filepath.Base name = name) then
      let lp := (LookPath name).1 in
      if bool_decide (lp ≠ "") then lp else name
    else name in
  {| cmd_Path := path; cmd_Args := name :: arg; cmd_Dir := ""; cmd_Env := [];
     cmd_Stdout := dev_null; cmd_Stderr := dev_null; cmd_Process := None |}.

(** File contents ([[]byte]). *)
Definition bytes := string.

(** How the operating system answers during one operation. *)
Record OS := {
  os_ReadFile : string → result bytes;
  os_WriteFile : string → bytes → FileMode → option error;
  os_MkdirAll : string → FileMode → option error;
  os_Walk : string → list WalkEntry;
  os_Environ : list string;
  os_Getenv : string → string;
  json_Unmarshal : bytes → result DeployConfig;
  (** [exec.LookPath(name)]: the path found, and the error. *)
  exec_LookPath : string → string * option error;
  (** [cmd.Start()]: the process started, or the error. *)
  cmd_Start : Cmd → result Process;
  (** [p.Signal(sig)] and [p.Kill()]. *)
  proc_Signal : Process → Signal → option error;
  proc_Kill : Process → option error;
  (** Does [cmd.Wait()] return within the given time? *)
  cmd_Wait_within : Cmd → Z → bool
}.

(** The calls made to the operating system, in order. *)
Inductive Action :=
  | AReadFile (path : string)
  | AWriteFile (path : string) (data : bytes) (perm : FileMode)
  | AMkdirAll (path : string) (perm : FileMode)
  | AStart (cmd : Cmd)
  | ASignal (p : Process) (sig : Signal)
  | AKill (p : Process)
  | AWait (cmd : Cmd) (timeout : Z)
  | ASleep (d : Z)
  | AMonitor (p : Process).

Global Instance Signal_eq_dec : EqDecision Signal.
Proof. solve_decision. Defined.
Global Instance Stream_eq_dec : EqDecision Stream.
Proof. solve_decision. Defined.
Global Instance Process_eq_dec : EqDecision Process.
Proof. solve_decision. Defined.
Global Instance Cmd_eq_dec : EqDecision Cmd.
Proof. solve_decision. Defined.
Global Instance Action_eq_dec : EqDecision Action.
Proof. solve_decision. Defined.

(** A computation with its trace. *)
Definition IO (A : Type) : Type := A * list Action.
Definition ret {A} (a : A) : IO A := (a, []).
Definition bind {A B} (m : IO A) (k : A → IO B) : IO B :=
  let '(a, t1) := m in let '(b, t2) := k a in (b, t1 ++ t2).
Definition act {A} (a : Action) (answer : A) : IO A := (answer, [a]).

Notation "'do' x <- m ; k" := (bind m (λ x, k))
  (at level 10, x name, m at level 100, k at level 200).

Record Deployer := {
  MountLocation : string;
  Config : DeployConfig;
  currentCmd : option Cmd;
  isRunning : bool
}.

Section supervisor.
(** [filepath.Rel(base, target)]; [None] when it returns an error. *)
Variable Rel : string → string → option string.

(** [LoadDeployConfig] up to the decision to panic: the configuration, or
    the message of the failure. *)
Definition read_config (os : OS) (share : string) : IO (result DeployConfig) :=
  let config_location := filepath.Join [share; CONFIG_ID] in
  do r <- act (AReadFile config_location) (os_ReadFile os config_location);
  match r with
  | Err err => ret (Err ("failed to load config: " +:+ err +:+ newline))
  | Ok data =>
      match json_Unmarshal os data with
      | Err err =>
          ret (Err ("failed to marshel config, json format probably wrong: "
          +:+ err +:+ newline))
      | Ok config => ret (Ok config)
      end
  end.

Definition LoadDeployConfig (os : OS) (share : string) (panicOnFailure : bool)
    : IO (outcome (option DeployConfig)) :=
  do r <- read_config os share;
  match r with
  | Err err_msg =>
      if panicOnFailure then ret (Panicked err_msg) else ret (Returned None)
  | Ok config => ret (Returned (Some config))
  end.

(** [NewDeployer]. [Config] is a pointer in the source; with
    [panicOnFailure] set the loader never returns nil, so a [Deployer]
    always has a configuration. *)
Definition NewDeployer (os : OS) (mountLocation : string) : IO (outcome Deployer) :=
  do cfg <- LoadDeployConfig os mountLocation true;
  match cfg with
  | Panicked msg => ret (Panicked msg)
  | Returned None => ret (Panicked "nil Config")
  | Returned (Some cfg) =>
      ret (Returned {| MountLocation := mountLocation; Config := cfg;
                       currentCmd := None; isRunning := false |})
  end.

Definition isSourceFile (d : Deployer) (relPath : string) : bool :=
  let sourceDir := SourceLocation (Config d) in
  let inSrcLoc :=
    filepath.HasPrefix (filepath.Clean relPath) (filepath.Clean sourceDir) in
  inSrcLoc.

Definition reloadConfig (os : OS) (d : Deployer) : IO Deployer :=
  do cfg <- LoadDeployConfig os (MountLocation d) false;
  match cfg with
  | Returned (Some cfg) =>
      ret {| MountLocation := MountLocation d; Config := cfg;
             currentCmd := currentCmd d; isRunning := isRunning d |}
  | _ => ret d
  end.

(** The end of [Kill]: wait for the exit, at most five seconds, then
    force, and clear the state. *)
Definition Kill_wait (os : OS) (d : Deployer) (cmd : Cmd) (p : Process)
    : IO (Deployer * option error) :=
  do done <- act (AWait cmd (5 * Second)) (cmd_Wait_within os cmd (5 * Second));
  do _ <- (if done : bool then ret None else act (AKill p) (proc_Kill os p));
  ret ({| MountLocation := MountLocation d; Config := Config d;
          currentCmd := None; isRunning := false |}, None).

Definition Kill (os : OS) (d : Deployer) : IO (Deployer * option error) :=
  match currentCmd d with
  | None => ret (d, None)
  | Some cmd =>
      match cmd_Process cmd with
      | None => ret (d, None)
      | Some p =>
          do err <- act (ASignal p SIGTERM) (proc_Signal os p SIGTERM);
          match err with
          | Some _ =>
              do err <- act (AKill p) (proc_Kill os p);
              match err with
              | Some err => ret (d, Some ("failed to kill process: " +:+ err))
              | None => Kill_wait os d cmd p
              end
          | None => Kill_wait os d cmd p
          end
      end
  end.

Definition copyFile (os : OS) (src dst : string) : IO (option error) :=
  do r <- act (AReadFile src) (os_ReadFile os src);
  match r with
  | Err err => ret (Some err)
  | Ok data => act (AWriteFile dst data perm_0644) (os_WriteFile os dst data perm_0644)
  end.

(** The callback of the walk in [copyDir]. *)
Definition copy_entry (os : OS) (src dst : string) (e : WalkEntry)
    : IO (option error) :=
  match w_err e with
  | Some err => ret (Some err)
  | None =>
      match Rel src (w_path e) with
      | None => ret (Some ("Rel: can't make " +:+ w_path e +:+ " relative to " +:+ src))
      | Some relPath =>
          let dstPath := filepath.Join [dst; relPath] in
          if info_IsDir (w_info e) then
            act (AMkdirAll dstPath (info_Mode (w_info e)))
                (os_MkdirAll os dstPath (info_Mode (w_info e)))
          else copyFile os (w_path e) dstPath
      end
  end.

Definition copyDir (os : OS) (src dst : string) : IO (option error) :=
  do err <- act (AMkdirAll dst perm_0755) (os_MkdirAll os dst perm_0755);
  match err with
  | Some err => ret (Some err)
  | None =>
      let '(t, err) :=
        Walk (os_Walk os src)
             (λ e t, let '(err, t') := copy_entry os src dst e in (t ++ t', err)) [] in
      (err, t)
  end.

(** The command [Deploy] builds before it starts it. *)
Definition deploy_cmd (os : OS) (d : Deployer) : Cmd :=
  let deployPath := DeployLocation (Config d) in
  let env := os_Environ os in
  let env := env ++ EnvironmentVariables (Config d) in
  let env := env ++ ["DISPLAY=:0"] in
  let env := env ++ ["XAUTHORITY=/home/" +:+ os_Getenv os "USER" +:+ "/.Xauthority"] in
  let cmd := Command (exec_LookPath os) (Executable (Config d)) (Args (Config d)) in
  {| cmd_Path := cmd_Path cmd; cmd_Args := cmd_Args cmd;
     cmd_Dir := deployPath; cmd_Env := env;
     cmd_Stdout := os_Stdout; cmd_Stderr := os_Stderr;
     cmd_Process := cmd_Process cmd |}.

Definition started (cmd : Cmd) (p : Process) : Cmd :=
  {| cmd_Path := cmd_Path cmd; cmd_Args := cmd_Args cmd;
     cmd_Dir := cmd_Dir cmd; cmd_Env := cmd_Env cmd;
     cmd_Stdout := cmd_Stdout cmd; cmd_Stderr := cmd_Stderr cmd;
     cmd_Process := Some p |}.

Definition Deploy (os : OS) (d : Deployer) : IO (Deployer * option error) :=
  let sourcePath := filepath.Join [MountLocation d; SourceLocation (Config d)] in
  let deployPath := DeployLocation (Config d) in
  do err <- copyDir os sourcePath deployPath;
  match err with
  | Some err => ret (d, Some ("failed to copy source: " +:+ err))
  | None =>
      let cmd := deploy_cmd os d in
      do r <- act (AStart cmd) (cmd_Start os cmd);
      match r with
      | Err err => ret (d, Some ("failed to start executable: " +:+ err))
      | Ok p =>
          do _ <- act (AMonitor p) tt;
          ret ({| MountLocation := MountLocation d; Config := Config d;
                  currentCmd := Some (started cmd p); isRunning := true |}, None)
      end
  end.

(** What the monitor goroutine of [Deploy] does when the child exits. *)
Definition monitor_exit (d : Deployer) : Deployer :=
  {| MountLocation := MountLocation d; Config := Config d;
     currentCmd := currentCmd d; isRunning := false |}.

Definition Redeploy (os : OS) (d : Deployer) : IO (Deployer * option error) :=
  do k <- Kill os d;
  do _ <- act (ASleep (500 * Millisecond)) tt;
  Deploy os k.1.

Definition IsRunning (d : Deployer) : bool := isRunning d.

Definition Handle (os : OS) (event : FileChangeEvent) (d : Deployer) : IO Deployer :=
  if bool_decide (RelPath event = CONFIG_ID) then
    do d <- reloadConfig os d;
    do r <- Redeploy os d;
    ret r.1
  else if isSourceFile d (RelPath event) then
    do r <- Redeploy os d;
    ret r.1
  else ret d.

(** *** Derived notions used to state the properties of the supervisor *)

(** The walk of [copyDir], entry by entry: it stops at the first error. *)
Fixpoint copy_walk (os : OS) (src dst : string) (entries : list WalkEntry)
    : IO (option error) :=
  match entries with
  | [] => ret None
  | e :: rest =>
      do err <- copy_entry os src dst e;
      match err with
      | Some err => ret (Some err)
      | None => copy_walk os src dst rest
      end
  end.

(** [Handle] as the subscriber that [main] registers with the watcher: the
    world of the bus is the supervisor and the calls made so far. *)
Definition Handle_subscriber (os : OS) : @FileChangeHandler (Deployer * list Action) :=
  λ event w, let '(d, t) := Handle os event w.1 in (d, w.2 ++ t).

(** [Redeploy] as [Handle] calls it: the error is dropped. *)
Definition redeploy_quietly (os : OS) (d : Deployer) : IO Deployer :=
  do r <- Redeploy os d;
  ret r.1.

(** The classification the specification words: a prefix test on the
    paths as they are, without cleaning. *)
Definition Handle_raw_prefix (os : OS) (event : FileChangeEvent) (d : Deployer)
    : IO Deployer :=
  if bool_decide (RelPath event = CONFIG_ID) then
    do d <- reloadConfig os d;
    redeploy_quietly os d
  else if filepath.HasPrefix (RelPath event) (SourceLocation (Config d)) then
    redeploy_quietly os d
  else ret d.

End supervisor.

(** ** Concrete runs: data *)

Module sample.

Definition t0 : Time := {| instant := 1000; zone := "Local" |}.
Definition t1 : Time := {| instant := 2000; zone := "Local" |}.
Definition t1_utc : Time := {| instant := 2000; zone := "UTC" |}.

Definition dir_entry (path : string) (mode : FileMode) : WalkEntry :=
  {| w_path := path;
     w_info := {| info_IsDir := true; info_Mode := Z.lor ModeDir mode;
                  info_Size := 4096; info_ModTime := t0 |};
     w_err := None |}.

Definition file_entry (path : string) (mode : FileMode) (size : Z) (t : Time)
    : WalkEntry :=
  {| w_path := path;
     w_info := {| info_IsDir := false; info_Mode := mode;
                  info_Size := size; info_ModTime := t |};
     w_err := None |}.

(** The watched tree of the scenario: [a.txt] of 100 bytes, then of 150
    bytes, then removed; [b.txt] stays as it is. *)
Definition share : string := "/mnt/agent".
Definition tree_100 : list WalkEntry :=
  [dir_entry share perm_0755;
   file_entry "/mnt/agent/a.txt" perm_0644 100 t0;
   file_entry "/mnt/agent/b.txt" perm_0644 7 t0].
Definition tree_150 : list WalkEntry :=
  [dir_entry share perm_0755;
   file_entry "/mnt/agent/a.txt" perm_0644 150 t1;
   file_entry "/mnt/agent/b.txt" perm_0644 7 t0].
Definition tree_gone : list WalkEntry :=
  [dir_entry share perm_0755;
   file_entry "/mnt/agent/b.txt" perm_0644 7 t0].

Definition known_100 : gmap string FileState :=
  {[ "a.txt" := {| st_ModTime := t0; st_Size := 100 |};
     "b.txt" := {| st_ModTime := t0; st_Size := 7 |} ]}.
Definition known_150 : gmap string FileState :=
  {[ "a.txt" := {| st_ModTime := t1; st_Size := 150 |};
     "b.txt" := {| st_ModTime := t0; st_Size := 7 |} ]}.

(** A watched tree with a source directory: a script of the given size
    and time, and notes outside the source directory. *)
Definition tree_src (size : Z) (t : Time) (notes : Z) : list WalkEntry :=
  [dir_entry share perm_0755;
   file_entry "/mnt/agent/notes.txt" perm_0644 notes t0;
   dir_entry "/mnt/agent/src" perm_0755;
   dir_entry "/mnt/agent/src/bin" (7 * 64);
   file_entry "/mnt/agent/src/bin/run.sh" perm_0755 size t].

(** A subscriber that writes down what it is told. *)
Definition recorder : @FileChangeHandler (list string) :=
  λ event w, w ++ [ChangeType event +:+ " " +:+ RelPath event].

Definition watcher : @FileWatcher (list string) :=
  Subscribe (NewFileWatcher share (5 * Second)) recorder.

Definition config (sourceLocation : string) : DeployConfig :=
  {| DeployLocation := "/opt/app"; Executable := "./run.sh"; Args := ["--fast"];
     SourceLocation := sourceLocation; EnvironmentVariables := ["MODE=dev"] |}.

Definition child : Process := {| Pid := 4242 |}.

(** A supervisor whose child was started by [Deploy]. *)
Definition child_cmd : Cmd :=
  {| cmd_Path := "./run.sh"; cmd_Args := ["./run.sh"; "--fast"];
     cmd_Dir := "/opt/app"; cmd_Env := ["MODE=dev"];
     cmd_Stdout := os_Stdout; cmd_Stderr := os_Stderr;
     cmd_Process := Some child |}.

Definition idle (sourceLocation : string) : Deployer :=
  {| MountLocation := share; Config := config sourceLocation;
     currentCmd := None; isRunning := false |}.

Definition running (sourceLocation : string) : Deployer :=
  {| MountLocation := share; Config := config sourceLocation;
     currentCmd := Some child_cmd; isRunning := true |}.

(** The source tree that [copyDir] walks: a directory and a script with
    its execute bits set. *)
Definition source_tree (src : string) : list WalkEntry :=
  [dir_entry src perm_0755;
   dir_entry (src +:+ "/bin") (7 * 64);
   file_entry (src +:+ "/bin/run.sh") perm_0755 12 t0].

(** An operating system that answers the process calls as given, reads
    every file as [data], accepts every write and cannot parse the
    configuration. *)
Definition os (signal kill : option error) (exits : bool) (start : result Process)
    (mkdir : option error) : OS :=
  {| os_ReadFile := λ _, Ok "data";
     os_WriteFile := λ _ _ _, None;
     os_MkdirAll := λ _ _, mkdir;
     os_Walk := source_tree;
     os_Environ := ["PATH=/bin"];
     os_Getenv := λ _, "deploy";
     json_Unmarshal := λ _, Err "unexpected end of JSON input";
     exec_LookPath := λ name, ("/usr/bin/" +:+ name, None);
     cmd_Start := λ _, start;
     proc_Signal := λ _ _, signal;
     proc_Kill := λ _, kill;
     cmd_Wait_within := λ _ _, exits |}.

Definition os_calm : OS := os None None true (Ok child) None.
Definition os_gone : OS :=
  os (Some "os: process already finished") (Some "os: process already finished")
     true (Ok child) None.
Definition os_no_start : OS :=
  os None None true (Err "fork/exec ./run.sh: no such file or directory") None.

(** An operating system on which the configuration file parses. *)
Definition os_parsing : OS :=
  {| os_ReadFile := λ _, Ok "{}";
     os_WriteFile := λ _ _ _, None;
     os_MkdirAll := λ _ _, None;
     os_Walk := source_tree;
     os_Environ := ["PATH=/bin"];
     os_Getenv := λ _, "deploy";
     json_Unmarshal := λ _, Ok (config "app");
     exec_LookPath := λ name, ("/usr/bin/" +:+ name, None);
     cmd_Start := λ _, Ok child;
     proc_Signal := λ _ _, None;
     proc_Kill := λ _, None;
     cmd_Wait_within := λ _ _, true |}.

(** An operating system whose walk meets a directory it may not read,
    before the script. *)
Definition os_unreadable : OS :=
  {| os_ReadFile := λ _, Ok "data";
     os_WriteFile := λ _ _ _, None;
     os_MkdirAll := λ _ _, None;
     os_Walk := λ src,
       [dir_entry src perm_0755;
        {| w_path := src +:+ "/secret";
           w_info := {| info_IsDir := true; info_Mode := ModeDir;
                        info_Size := 0; info_ModTime := t0 |};
           w_err := Some "open /mnt/agent/src/secret: permission denied" |};
        file_entry (src +:+ "/run.sh") perm_0755 12 t0];
     os_Environ := ["PATH=/bin"];
     os_Getenv := λ _, "deploy";
     json_Unmarshal := λ _, Err "unexpected end of JSON input";
     exec_LookPath := λ name, ("/usr/bin/" +:+ name, None);
     cmd_Start := λ _, Ok child;
     proc_Signal := λ _ _, None;
     proc_Kill := λ _, None;
     cmd_Wait_within := λ _ _, true |}.

End sample.

(** * Properties *)

(** ** Maps updated by folds *)

Section map_folds.
Context {A : Type}.
Implicit Types (m : gmap string A) (l : list (string * A)).

Lemma range_NoDup (ro : RangeOrder) m : NoDup (range ro m).*1.
Proof.
  rewrite (range_perm ro A m). apply NoDup_fst_map_to_list.
Qed.

Lemma range_elem_of (ro : RangeOrder) m k v :
  (k, v) ∈ range ro m ↔ m !! k = Some v.
Proof.
  rewrite (range_perm ro A m). apply elem_of_map_to_list.
Qed.

Lemma range_key (ro : RangeOrder) m k :
  k ∈ (range ro m).*1 ↔ is_Some (m !! k).
Proof.
  rewrite list_elem_of_fmap. split.
  - intros [[k' v] [-> Hin]]. apply range_elem_of in Hin. by exists v.
  - intros [v Hv]. exists (k, v). split; [done|]. by apply range_elem_of.
Qed.

End map_folds.

Section known_folds.
Implicit Types (m : gmap string FileState) (l : list (string * FileState)).

Lemma foldl_put_notin l m k :
  k ∉ l.*1 → foldl update_known m l !! k = m !! k.
Proof.
  revert m. induction l as [|[k' v] l IH]; intros m Hk; [done|].
  rewrite fmap_cons, not_elem_of_cons in Hk. destruct Hk as [Hne Hk].
  simpl. rewrite IH by done. unfold update_known. simpl. by rewrite lookup_insert_ne.
Qed.

Lemma foldl_put_in l m k v :
  NoDup l.*1 → (k, v) ∈ l → foldl update_known m l !! k = Some v.
Proof.
  revert m. induction l as [|[k' v'] l IH]; intros m Hnd Hin.
  - by apply elem_of_nil in Hin.
  - rewrite fmap_cons in Hnd. apply NoDup_cons in Hnd as [Hk' Hnd].
    apply elem_of_cons in Hin as [Heq|Hin]; simpl.
    + injection Heq as <- <-. rewrite foldl_put_notin by done.
      unfold update_known. simpl. apply lookup_insert_eq.
    + by apply IH.
Qed.

Lemma foldl_put_key l m k :
  k ∈ l.*1 → is_Some (foldl update_known m l !! k).
Proof.
  revert m. induction l as [|[k' v'] l IH]; intros m Hin.
  - by apply elem_of_nil in Hin.
  - simpl. destruct (decide (k ∈ l.*1)) as [Hl|Hl]; [by apply IH|].
    rewrite fmap_cons in Hin. apply elem_of_cons in Hin as [->|Hin]; [|done].
    rewrite foldl_put_notin by done. unfold update_known. simpl.
    rewrite lookup_insert_eq. by eexists.
Qed.

Lemma foldl_put_inv l m k v :
  foldl update_known m l !! k = Some v → (k, v) ∈ l ∨ m !! k = Some v.
Proof.
  revert m. induction l as [|[k' v'] l IH]; intros m Hk; [by right|].
  simpl in Hk. apply IH in Hk as [Hin|Hk].
  - left. by apply elem_of_cons; right.
  - unfold update_known in Hk. simpl in Hk. rewrite lookup_insert in Hk.
    case_decide as Heq; [|by right].
    left. injection Hk as <-. subst k'. apply elem_of_cons. by left.
Qed.

(** The loop that removes from the stored map the keys absent from the
    current one. *)
Lemma foldl_remove_deleted cur l m k :
  foldl (remove_deleted cur) m l !! k =
    if bool_decide (k ∈ l.*1 ∧ cur !! k = None) then None else m !! k.
Proof.
  revert m. induction l as [|[k' v'] l IH]; intros m.
  - cbn [foldl]. case_bool_decide as H; [|done].
    destruct H as [Hin _]. by apply elem_of_nil in Hin.
  - rewrite fmap_cons. cbn [foldl fst]. rewrite IH.
    unfold remove_deleted. cbn [fst].
    repeat case_bool_decide; try done.
    + destruct_and?. exfalso. match goal with H : ¬ _ |- _ => apply H end.
      split; [|done]. by apply elem_of_cons; right.
    + destruct_and?.
      match goal with H : k ∈ k' :: _ |- _ => apply elem_of_cons in H as [->|?] end.
      * match goal with H : cur !! k' = None |- _ => rewrite H end.
        by rewrite lookup_delete_eq.
      * exfalso. match goal with H : ¬ _ |- _ => apply H end. done.
    + destruct (cur !! k') eqn:Hc; [done|].
      destruct (decide (k = k')) as [->|Hne]; [|by rewrite lookup_delete_ne].
      exfalso. match goal with H : ¬ (_ ∈ _ :: _ ∧ _) |- _ => apply H end.
      split; [|done]. apply elem_of_cons. by left.
Qed.

End known_folds.

(** ** The event bus *)

Section bus_facts.
Context {W : Type}.
Implicit Types (fw : @FileWatcher W) (b : @Bus W) (event : FileChangeEvent).

Lemma call_handlers_notified event l b :
  notified (foldl (call_handler event) b l) = notified b.
Proof. revert b. induction l as [|ih l IH]; intros b; [done|]. simpl. by rewrite IH. Qed.

Lemma call_handlers_delivered event l b :
  delivered (foldl (call_handler event) b l)
  = delivered b ++ ((λ ih : nat * FileChangeHandler, (S ih.1, event)) <$> l).
Proof.
  revert b. induction l as [|ih l IH]; intros b; simpl.
  - by rewrite app_nil_r.
  - rewrite IH. simpl. by rewrite <- app_assoc.
Qed.

Lemma Notify_notified fw event b :
  notified (Notify fw event b) = notified b ++ [event].
Proof. unfold Notify. by rewrite call_handlers_notified. Qed.

Lemma Notify_delivered fw event b :
  delivered (Notify fw event b) = delivered b ++ deliveries fw event.
Proof. unfold Notify. by rewrite call_handlers_delivered. Qed.

Lemma notify_all_notified fw events b :
  notified (notify_all fw events b) = notified b ++ events.
Proof.
  unfold notify_all. revert b.
  induction events as [|event events IH]; intros b; cbn [foldl].
  - by rewrite app_nil_r.
  - rewrite IH, Notify_notified. by rewrite <- app_assoc.
Qed.

Lemma notify_all_delivered fw events b :
  delivered (notify_all fw events b)
  = delivered b ++ flat_map (deliveries fw) events.
Proof.
  unfold notify_all. revert b.
  induction events as [|event events IH]; intros b; cbn [foldl flat_map].
  - by rewrite app_nil_r.
  - rewrite IH, Notify_delivered. by rewrite <- app_assoc.
Qed.

Lemma notify_all_app fw ev1 ev2 b :
  notify_all fw (ev1 ++ ev2) b = notify_all fw ev2 (notify_all fw ev1 b).
Proof. unfold notify_all. apply foldl_app. Qed.

End bus_facts.

(** ** One scan *)

Section scan_facts.
Context {W : Type}.
Variable Rel : string → string → option string.
Variable ro : RangeOrder.
Implicit Types (fw : @FileWatcher W) (b : @Bus W) (w : W).
Implicit Types (knownFiles cur : gmap string FileState).

Lemma visit_spec fw sharePath knownFiles isInitial e cur b :
  visit Rel fw sharePath knownFiles isInitial e (cur, b) =
    match scan_entry Rel sharePath e with
    | Some x =>
        (update_known cur x,
         notify_all fw (entry_events knownFiles isInitial (w_path e) x) b, None)
    | None => (cur, b, None)
    end.
Proof.
  unfold visit, scan_entry.
  destruct (w_err e); [done|].
  destruct (info_IsDir (w_info e)); [done|].
  destruct (Rel sharePath (w_path e)) as [relPath|]; [|done].
  unfold entry_events, update_known. cbn [fst snd].
  destruct (knownFiles !! relPath) as [oldState|].
  - destruct (state_changed oldState _); done.
  - destruct (negb isInitial); done.
Qed.

(** The walk of [scanFiles] never fails; it builds the snapshot and
    notifies the events of its entries in order. *)
Lemma Walk_visit fw sharePath knownFiles isInitial listing cur b :
  Walk listing (visit Rel fw sharePath knownFiles isInitial) (cur, b) =
    (foldl update_known cur (omap (scan_entry Rel sharePath) listing),
     notify_all fw (walk_events Rel sharePath knownFiles isInitial listing) b,
     None).
Proof.
  revert cur b. induction listing as [|e listing IH]; intros cur b; [done|].
  cbn [Walk]. rewrite visit_spec. unfold walk_events. cbn [omap list_omap flat_map].
  destruct (scan_entry Rel sharePath e) as [x|].
  - rewrite IH. rewrite notify_all_app. done.
  - rewrite IH. done.
Qed.

Lemma check_deleted_spec fw cur l b :
  foldl (check_deleted fw cur) b l = notify_all fw (deleted_events cur l) b.
Proof.
  revert b. induction l as [|kv l IH]; intros b; [done|].
  cbn [foldl]. rewrite IH. unfold deleted_events, check_deleted.
  cbn [omap list_omap]. destruct (cur !! kv.1); done.
Qed.

(** The scan, in closed form. *)
Lemma scanFiles_spec fw listing sharePath knownFiles isInitial w :
  let cur := snapshot_of Rel sharePath listing in
  let k1 := foldl update_known knownFiles (range ro cur) in
  scanFiles Rel ro fw listing sharePath knownFiles isInitial w =
    {| known := foldl (remove_deleted cur) k1 (range ro k1);
       current := cur;
       bus := notify_all fw
                (walk_events Rel sharePath knownFiles isInitial listing
                 ++ (if isInitial then []
                     else deleted_events cur (range ro knownFiles)))
                {| world := w; notified := []; delivered := [] |} |}.
Proof.
  intros cur k1. unfold scanFiles. rewrite Walk_visit.
  fold (snapshot_of Rel sharePath listing). fold cur. fold k1.
  f_equal. rewrite notify_all_app. destruct isInitial; cbn [negb].
  - done.
  - by rewrite check_deleted_spec.
Qed.

End scan_facts.

(** ** The events of a scan, path by path *)

Section filters.
Context {A : Type} (P : A → Prop) `{∀ x, Decision (P x)}.

Lemma filter_keeps_all (l : list A) : Forall P l → filter P l = l.
Proof.
  induction 1 as [|x l Hx _ IH]; [done|].
  rewrite filter_cons_True by done. by rewrite IH.
Qed.

Lemma filter_keeps_none (l : list A) : Forall (λ x, ¬ P x) l → filter P l = [].
Proof.
  induction 1 as [|x l Hx _ IH]; [done|].
  by rewrite filter_cons_False.
Qed.

End filters.

Section event_facts.
Variable Rel : string → string → option string.
Implicit Types (knownFiles cur : gmap string FileState) (p : string).

Lemma entry_events_RelPath knownFiles isInitial fullPath x event :
  event ∈ entry_events knownFiles isInitial fullPath x → RelPath event = x.1.
Proof.
  unfold entry_events. intros Hin.
  destruct (knownFiles !! x.1) as [oldState|].
  - destruct (state_changed oldState x.2).
    + apply list_elem_of_singleton in Hin. by subst event.
    + by apply elem_of_nil in Hin.
  - destruct (negb isInitial).
    + apply list_elem_of_singleton in Hin. by subst event.
    + by apply elem_of_nil in Hin.
Qed.

Lemma entry_events_not_deleted knownFiles isInitial fullPath x event :
  event ∈ entry_events knownFiles isInitial fullPath x →
  ChangeType event = "created" ∨ ChangeType event = "modified".
Proof.
  unfold entry_events. intros Hin.
  destruct (knownFiles !! x.1) as [oldState|].
  - destruct (state_changed oldState x.2).
    + apply list_elem_of_singleton in Hin. subst event. by right.
    + by apply elem_of_nil in Hin.
  - destruct (negb isInitial).
    + apply list_elem_of_singleton in Hin. subst event. by left.
    + by apply elem_of_nil in Hin.
Qed.

Lemma entry_events_filter_eq knownFiles isInitial fullPath x :
  filter (λ event, RelPath event = x.1) (entry_events knownFiles isInitial fullPath x)
  = entry_events knownFiles isInitial fullPath x.
Proof.
  apply filter_keeps_all, Forall_forall. intros event. apply entry_events_RelPath.
Qed.

Lemma entry_events_filter_ne knownFiles isInitial fullPath x p :
  x.1 ≠ p →
  filter (λ event, RelPath event = p) (entry_events knownFiles isInitial fullPath x) = [].
Proof.
  intros Hne. apply filter_keeps_none, Forall_forall. intros event Hin Hp.
  apply entry_events_RelPath in Hin. congruence.
Qed.

Lemma walk_events_cons sharePath knownFiles isInitial e listing :
  walk_events Rel sharePath knownFiles isInitial (e :: listing) =
    match scan_entry Rel sharePath e with
    | Some x => entry_events knownFiles isInitial (w_path e) x
    | None => []
    end ++ walk_events Rel sharePath knownFiles isInitial listing.
Proof. done. Qed.

Lemma scanned_paths_cons sharePath e listing :
  scanned_paths Rel sharePath (e :: listing) =
    match scan_entry Rel sharePath e with
    | Some x => x.1 :: scanned_paths Rel sharePath listing
    | None => scanned_paths Rel sharePath listing
    end.
Proof.
  unfold scanned_paths. cbn [omap list_omap].
  destruct (scan_entry Rel sharePath e); done.
Qed.

(** A path the walk does not record gets no event from the walk. *)
Lemma walk_events_absent sharePath knownFiles isInitial listing p :
  p ∉ scanned_paths Rel sharePath listing →
  filter (λ event, RelPath event = p)
         (walk_events Rel sharePath knownFiles isInitial listing) = [].
Proof.
  induction listing as [|e listing IH]; intros Hp; [done|].
  rewrite walk_events_cons, filter_app. rewrite scanned_paths_cons in Hp.
  destruct (scan_entry Rel sharePath e) as [x|].
  - apply not_elem_of_cons in Hp as [Hne Hp].
    rewrite entry_events_filter_ne by done. by rewrite IH.
  - by rewrite IH.
Qed.

(** A path the walk records once gets the events of that entry alone. *)
Lemma walk_events_once sharePath knownFiles isInitial listing p state :
  NoDup (scanned_paths Rel sharePath listing) →
  (p, state) ∈ omap (scan_entry Rel sharePath) listing →
  ∃ fullPath,
    filter (λ event, RelPath event = p)
           (walk_events Rel sharePath knownFiles isInitial listing)
    = entry_events knownFiles isInitial fullPath (p, state).
Proof.
  induction listing as [|e listing IH]; intros Hnd Hin.
  - by apply elem_of_nil in Hin.
  - rewrite walk_events_cons, filter_app. rewrite scanned_paths_cons in Hnd.
    cbn [omap list_omap] in Hin.
    destruct (scan_entry Rel sharePath e) as [x|].
    + apply NoDup_cons in Hnd as [Hx Hnd].
      apply elem_of_cons in Hin as [<-|Hin].
      * exists (w_path e).
        rewrite (entry_events_filter_eq _ _ _ (p, state)).
        rewrite walk_events_absent by done. by rewrite app_nil_r.
      * assert (x.1 ≠ p) as Hne.
        { intros <-. apply Hx. unfold scanned_paths.
          apply list_elem_of_fmap. by exists (x.1, state). }
        rewrite entry_events_filter_ne by done. by apply IH.
    + by apply IH.
Qed.

Lemma walk_events_not_deleted sharePath knownFiles isInitial listing :
  Forall (λ event, ChangeType event = "created" ∨ ChangeType event = "modified")
         (walk_events Rel sharePath knownFiles isInitial listing).
Proof.
  induction listing as [|e listing IH]; [by constructor|].
  rewrite walk_events_cons. apply Forall_app. split; [|done].
  destruct (scan_entry Rel sharePath e) as [x|]; [|by constructor].
  apply Forall_forall. intros event. apply entry_events_not_deleted.
Qed.

Lemma deleted_events_cons cur kv l :
  deleted_events cur (kv :: l) =
    match cur !! kv.1 with
    | Some _ => deleted_events cur l
    | None => deleted_event kv.1 :: deleted_events cur l
    end.
Proof. unfold deleted_events. cbn [omap list_omap]. by destruct (cur !! kv.1). Qed.

Lemma deleted_events_all_deleted cur l :
  Forall (λ event, ChangeType event = "deleted"
                   ∧ RelPath event ∈ l.*1 ∧ cur !! RelPath event = None)
         (deleted_events cur l).
Proof.
  induction l as [|kv l IH]; [by constructor|].
  rewrite deleted_events_cons.
  assert (Forall (λ event, ChangeType event = "deleted"
                   ∧ RelPath event ∈ (kv :: l).*1 ∧ cur !! RelPath event = None)
                 (deleted_events cur l)) as IH'.
  { eapply Forall_impl; [exact IH|]. intros event (? & ? & ?).
    split_and!; [done| |done]. rewrite fmap_cons. by apply elem_of_cons; right. }
  destruct (cur !! kv.1) eqn:Hc; [done|].
  constructor; [|done]. cbn. split_and!; [done| |done].
  apply elem_of_cons. by left.
Qed.

Lemma deleted_events_absent cur l p :
  p ∉ l.*1 ∨ is_Some (cur !! p) →
  filter (λ event, RelPath event = p) (deleted_events cur l) = [].
Proof.
  intros Hp. apply filter_keeps_none, Forall_forall. intros event Hin Heq.
  pose proof (deleted_events_all_deleted cur l) as Hall.
  rewrite Forall_forall in Hall. destruct (Hall _ Hin) as (_ & Hl & Hc).
  subst p. destruct Hp as [Hp|[v Hv]]; [done|congruence].
Qed.

(** A stored path missing from the current snapshot gets one event. *)
Lemma deleted_events_once cur l p :
  NoDup l.*1 → p ∈ l.*1 → cur !! p = None →
  filter (λ event, RelPath event = p) (deleted_events cur l) = [deleted_event p].
Proof.
  induction l as [|kv l IH]; intros Hnd Hin Hc.
  - by apply elem_of_nil in Hin.
  - rewrite fmap_cons in Hnd, Hin. apply NoDup_cons in Hnd as [Hkv Hnd].
    rewrite deleted_events_cons.
    apply elem_of_cons in Hin as [->|Hin].
    + rewrite Hc. rewrite filter_cons_True by done.
      rewrite deleted_events_absent; [done|by left].
    + assert (kv.1 ≠ p) as Hne by (intros Heq; apply Hkv; by rewrite Heq).
      destruct (cur !! kv.1).
      * by apply IH.
      * rewrite filter_cons_False by done. by apply IH.
Qed.

End event_facts.

(** ** The change detector: claims on [scanFiles] and [pollloop] *)

Section detector.
Context {W : Type}.
Variable Rel : string → string → option string.
Variable ro : RangeOrder.
Implicit Types (fw : @FileWatcher W) (w : W).
Implicit Types (knownFiles : gmap string FileState) (p : string).

Lemma state_changed_true oldState state :
  state_changed oldState state = true ↔
  st_Size oldState ≠ st_Size state
  ∨ instant (st_ModTime oldState) ≠ instant (st_ModTime state).
Proof.
  unfold state_changed, Time_Equal. rewrite orb_true_iff, !negb_true_iff.
  rewrite !bool_decide_eq_false. tauto.
Qed.

Lemma state_changed_false oldState state :
  state_changed oldState state = false ↔
  st_Size oldState = st_Size state
  ∧ instant (st_ModTime oldState) = instant (st_ModTime state).
Proof.
  unfold state_changed, Time_Equal. rewrite orb_false_iff, !negb_false_iff.
  rewrite !bool_decide_eq_true. tauto.
Qed.

Lemma walk_events_initial sharePath listing :
  walk_events Rel sharePath ∅ true listing = [].
Proof.
  induction listing as [|e listing IH]; [done|].
  rewrite walk_events_cons, IH.
  destruct (scan_entry Rel sharePath e) as [x|]; [|done].
  unfold entry_events. by rewrite lookup_empty.
Qed.

(** After a scan the stored map is the current snapshot. *)
Lemma scanFiles_known fw listing sharePath knownFiles isInitial w :
  known (scanFiles Rel ro fw listing sharePath knownFiles isInitial w)
  = snapshot_of Rel sharePath listing.
Proof.
  rewrite scanFiles_spec. cbn [known].
  set (cur := snapshot_of Rel sharePath listing).
  set (k1 := foldl update_known knownFiles (range ro cur)).
  assert (∀ k, k1 !! k = match cur !! k with
                         | Some v => Some v
                         | None => knownFiles !! k
                         end) as Hk1.
  { intros k. unfold k1. destruct (cur !! k) as [v|] eqn:Hc.
    - apply foldl_put_in; [apply range_NoDup|]. by apply range_elem_of.
    - apply foldl_put_notin. rewrite range_key, Hc. by intros [? ?]. }
  apply map_eq. intros k. rewrite foldl_remove_deleted.
  case_bool_decide as Hd.
  - by destruct Hd as [_ ->].
  - rewrite Hk1. destruct (cur !! k) as [v|] eqn:Hc; [done|].
    destruct (knownFiles !! k) as [v|] eqn:Hk; [|done].
    exfalso. apply Hd. split; [|done].
    apply range_key. rewrite Hk1, Hc, Hk. by eexists.
Qed.

Lemma scanFiles_current fw listing sharePath knownFiles isInitial w :
  current (scanFiles Rel ro fw listing sharePath knownFiles isInitial w)
  = snapshot_of Rel sharePath listing.
Proof. by rewrite scanFiles_spec. Qed.

Lemma scanFiles_notified fw listing sharePath knownFiles isInitial w :
  notified (bus (scanFiles Rel ro fw listing sharePath knownFiles isInitial w))
  = walk_events Rel sharePath knownFiles isInitial listing
    ++ (if isInitial then []
        else deleted_events (snapshot_of Rel sharePath listing) (range ro knownFiles)).
Proof. rewrite scanFiles_spec. cbn [bus]. by rewrite notify_all_notified. Qed.

Lemma poll_events_grow fw ticks (ps : @PollState W) :
  ∃ later,
    poll_events (foldl (poll_scan Rel ro fw false) ps ticks) = poll_events ps ++ later.
Proof.
  revert ps. induction ticks as [|listing ticks IH]; intros ps.
  - exists []. by rewrite app_nil_r.
  - cbn [foldl]. destruct (IH (poll_scan Rel ro fw false ps listing)) as [later ->].
    unfold poll_scan. cbn [poll_events]. rewrite <- app_assoc. by eexists.
Qed.

(** C3. The initial scan (flag set, empty stored map) of any listing
    passes no event to [Notify], invokes no subscriber and leaves the
    subscribers' world as it was; it only stores the snapshot. This holds
    for the first scan of [pollloop], whatever scans follow. *)
Theorem initial_scan_silent fw listing sharePath ticks w :
  let r := scanFiles Rel ro fw listing sharePath ∅ true w in
  notified (bus r) = []
  ∧ delivered (bus r) = []
  ∧ world (bus r) = w
  ∧ known r = snapshot_of Rel sharePath listing
  ∧ head (poll_events (pollloop Rel ro fw listing ticks w)) = Some [].
Proof.
  intros r.
  assert (bus r = {| world := w; notified := []; delivered := [] |}) as Hbus.
  { unfold r. rewrite scanFiles_spec. cbn [bus].
    by rewrite walk_events_initial. }
  split_and!; try (by rewrite Hbus).
  - apply scanFiles_known.
  - unfold pollloop.
    destruct (poll_events_grow fw ticks
      (poll_scan Rel ro fw true
         {| poll_known := ∅; poll_world := w; poll_events := [] |} listing))
      as [later ->].
    unfold poll_scan. cbn [poll_events poll_known poll_world app head].
    rewrite scanFiles_notified, walk_events_initial. done.
Qed.

(** C4. In a scan whose walk records each path once, a path present in
    the stored snapshot and in the current one gets exactly one event, a
    Modified one carrying the current state, when its size or the instant
    of its modification time differs, and no event at all when both are
    equal (the times are compared by instant, not by representation). *)
Theorem modified_exactly_once fw listing sharePath knownFiles isInitial w
    p oldState state :
  let r := scanFiles Rel ro fw listing sharePath knownFiles isInitial w in
  NoDup (scanned_paths Rel sharePath listing) →
  knownFiles !! p = Some oldState →
  current r !! p = Some state →
  (st_Size oldState ≠ st_Size state
     ∨ instant (st_ModTime oldState) ≠ instant (st_ModTime state) →
   ∃ fullPath,
     filter (λ event, RelPath event = p) (notified (bus r))
     = [modified_event p fullPath state])
  ∧ (st_Size oldState = st_Size state
     ∧ instant (st_ModTime oldState) = instant (st_ModTime state) →
     filter (λ event, RelPath event = p) (notified (bus r)) = []).
Proof.
  intros r Hnd Hold Hcur. unfold r in *. clear r.
  rewrite scanFiles_current in Hcur. rewrite scanFiles_notified, filter_app.
  assert (filter (λ event, RelPath event = p)
            (if isInitial then []
             else deleted_events (snapshot_of Rel sharePath listing)
                    (range ro knownFiles)) = []) as ->.
  { destruct isInitial; [done|]. apply deleted_events_absent. right. by eexists. }
  rewrite app_nil_r.
  apply foldl_put_inv in Hcur as [Hin|Hempty]; [|by rewrite lookup_empty in Hempty].
  destruct (walk_events_once Rel sharePath knownFiles isInitial listing p state
              Hnd Hin) as [fullPath ->].
  unfold entry_events. cbn [fst snd]. rewrite Hold. split.
  - intros Hdiff. apply state_changed_true in Hdiff as ->. by exists fullPath.
  - intros Hsame. by apply state_changed_false in Hsame as ->.
Qed.

(** C5. In a scan that is not the initial one, a path of the stored
    snapshot that is missing from the current one gets exactly one event,
    the Deleted one; and the events of the scan are those of the walk
    (Created and Modified only) followed by the Deleted ones, which are
    thus notified after the walk has returned. *)
Theorem deleted_once_after_walk fw listing sharePath knownFiles w p :
  let r := scanFiles Rel ro fw listing sharePath knownFiles false w in
  is_Some (knownFiles !! p) →
  current r !! p = None →
  ∃ b1 del_events,
    Walk listing (visit Rel fw sharePath knownFiles false)
         (∅, {| world := w; notified := []; delivered := [] |})
    = (current r, b1, None)
    ∧ notified (bus r) = notified b1 ++ del_events
    ∧ Forall (λ event, ChangeType event = "created" ∨ ChangeType event = "modified")
             (notified b1)
    ∧ Forall (λ event, ChangeType event = "deleted") del_events
    ∧ filter (λ event, RelPath event = p) (notified (bus r)) = [deleted_event p].
Proof.
  intros r Hold Hcur. unfold r in *. clear r.
  rewrite scanFiles_current in *. rewrite scanFiles_notified.
  eexists _, _. split_and!.
  - apply Walk_visit.
  - by rewrite notify_all_notified.
  - rewrite notify_all_notified. apply walk_events_not_deleted.
  - eapply Forall_impl; [apply deleted_events_all_deleted|]. by intros event [? _].
  - rewrite filter_app. rewrite walk_events_absent.
    + apply deleted_events_once; [apply range_NoDup| |done]. by apply range_key.
    + intros Hin. apply (foldl_put_key _ ∅) in Hin.
      unfold snapshot_of in Hcur. rewrite Hcur in Hin. by destruct Hin.
Qed.

(** C6. After any scan the stored snapshot is the current snapshot, the
    one the walk built from the empty map: a path of the current snapshot
    is stored with its current state and any other path is not stored. *)
Theorem stored_snapshot_replaced fw listing sharePath knownFiles isInitial w :
  let r := scanFiles Rel ro fw listing sharePath knownFiles isInitial w in
  known r = current r
  ∧ current r = snapshot_of Rel sharePath listing
  ∧ ∀ p, known r !! p = current r !! p.
Proof.
  intros r. unfold r. rewrite scanFiles_known, scanFiles_current. done.
Qed.

End detector.

(** ** The change detector on the scenario of the specification *)

(** First scan: nothing; [a.txt] grows: one Modified event of size 150;
    [a.txt] is removed: one Deleted event. *)
Example scenario_grow_then_remove :
  let p := pollloop filepath.Rel_under range_canonical sample.watcher
             sample.tree_100 [sample.tree_150; sample.tree_gone] [] in
  poll_events p =
    [ [];
      [modified_event "a.txt" "/mnt/agent/a.txt" {| st_ModTime := sample.t1; st_Size := 150 |}];
      [deleted_event "a.txt"] ]
  ∧ poll_world p = ["modified a.txt"; "deleted a.txt"]
  ∧ poll_known p = {[ "b.txt" := {| st_ModTime := sample.t0; st_Size := 7 |} ]}.
Proof. vm_compute. done. Qed.

(** The order of the deletion loop does not matter to the scenario. *)
Example scenario_other_order :
  poll_events (pollloop filepath.Rel_under range_reversed sample.watcher
                 sample.tree_100 [sample.tree_150; sample.tree_gone] [])
  = [ [];
      [modified_event "a.txt" "/mnt/agent/a.txt" {| st_ModTime := sample.t1; st_Size := 150 |}];
      [deleted_event "a.txt"] ].
Proof. vm_compute. done. Qed.

(** A change of the location alone is no modification. *)
Example same_instant_other_zone :
  state_changed {| st_ModTime := sample.t1; st_Size := 150 |}
                {| st_ModTime := sample.t1_utc; st_Size := 150 |} = false.
Proof. reflexivity. Qed.

Lemma modified_exactly_once_witness :
  ∃ fullPath,
    filter (λ event, RelPath event = "a.txt")
      (notified (bus (scanFiles filepath.Rel_under range_canonical sample.watcher
                        sample.tree_150 sample.share sample.known_100 false [])))
    = [modified_event "a.txt" fullPath {| st_ModTime := sample.t1; st_Size := 150 |}].
Proof.
  refine (proj1 (modified_exactly_once filepath.Rel_under range_canonical
                   sample.watcher sample.tree_150 sample.share sample.known_100 false []
                   "a.txt" {| st_ModTime := sample.t0; st_Size := 100 |}
                   {| st_ModTime := sample.t1; st_Size := 150 |} _ _ _) _).
  - apply (bool_decide_unpack _). vm_compute. exact I.
  - vm_compute. reflexivity.
  - vm_compute. reflexivity.
  - left. simpl. lia.
Defined.

Lemma deleted_once_after_walk_witness :
  ∃ b1 del_events,
    Walk sample.tree_gone
         (visit filepath.Rel_under sample.watcher sample.share sample.known_150 false)
         (∅, {| world := []; notified := []; delivered := [] |})
    = (current (scanFiles filepath.Rel_under range_canonical sample.watcher
                  sample.tree_gone sample.share sample.known_150 false []), b1, None)
    ∧ notified (bus (scanFiles filepath.Rel_under range_canonical sample.watcher
                       sample.tree_gone sample.share sample.known_150 false []))
      = notified b1 ++ del_events
    ∧ Forall (λ event, ChangeType event = "created" ∨ ChangeType event = "modified")
             (notified b1)
    ∧ Forall (λ event, ChangeType event = "deleted") del_events
    ∧ filter (λ event, RelPath event = "a.txt")
        (notified (bus (scanFiles filepath.Rel_under range_canonical sample.watcher
                          sample.tree_gone sample.share sample.known_150 false [])))
      = [deleted_event "a.txt"].
Proof.
  apply (deleted_once_after_walk filepath.Rel_under range_canonical sample.watcher
           sample.tree_gone sample.share sample.known_150 [] "a.txt").
  - vm_compute. by eexists.
  - vm_compute. reflexivity.
Defined.

(** ** Traces *)

Section io_facts.

Lemma bind_ret_l {A B} (a : A) (k : A → IO B) : bind (ret a) k = k a.
Proof. unfold bind, ret. by destruct (k a). Qed.

Lemma bind_act {A B} (x : Action) (a : A) (k : A → IO B) :
  bind (act x a) k = ((k a).1, x :: (k a).2).
Proof. unfold bind, act. by destruct (k a). Qed.

Lemma bind_fst {A B} (m : IO A) (k : A → IO B) : (bind m k).1 = (k m.1).1.
Proof. unfold bind. destruct m as [a t1]. cbn [fst]. by destruct (k a). Qed.

Lemma bind_snd {A B} (m : IO A) (k : A → IO B) : (bind m k).2 = m.2 ++ (k m.1).2.
Proof. unfold bind. destruct m as [a t1]. cbn [fst snd]. by destruct (k a). Qed.

End io_facts.

(** ** Kill *)

Section kill_facts.
Implicit Types (os : OS) (d : Deployer).

Lemma Kill_wait_result os d cmd p :
  (Kill_wait os d cmd p).1
  = ({| MountLocation := MountLocation d; Config := Config d;
        currentCmd := None; isRunning := false |}, None).
Proof.
  unfold Kill_wait. rewrite bind_act. cbn [fst]. by rewrite bind_fst.
Qed.

Lemma Kill_wait_trace os d cmd p :
  (Kill_wait os d cmd p).2
  = AWait cmd (5 * Second)
    :: (if cmd_Wait_within os cmd (5 * Second) then [] else [AKill p]).
Proof.
  unfold Kill_wait. rewrite bind_act. cbn [snd]. rewrite bind_snd.
  destruct (cmd_Wait_within os cmd (5 * Second)); cbn; done.
Qed.

(** C8. On a supervisor without a process handle (no command recorded,
    or a command that has no process) [Kill] returns nil, calls nothing
    and leaves the supervisor, handle and running flag included, as it is. *)
Theorem Kill_idle_noop os d :
  currentCmd d = None
    ∨ (∃ cmd, currentCmd d = Some cmd ∧ cmd_Process cmd = None) →
  Kill os d = (d, None, []).
Proof.
  intros [Hnone|(cmd & Hcmd & Hproc)]; unfold Kill.
  - by rewrite Hnone.
  - by rewrite Hcmd, Hproc.
Qed.

(** C1 (as amended). With a process handle recorded, [Kill] clears the
    handle and the running flag whenever it returns nil, on each path:
    exit within the grace period, forced termination after it, refused
    signal followed by a forced termination that works. It returns an
    error exactly when the signal and the forced termination that follows
    are both refused, and then it leaves the supervisor as it is. *)
Theorem Kill_clears_on_success os d cmd p :
  currentCmd d = Some cmd →
  cmd_Process cmd = Some p →
  let r := Kill os d in
  (r.1.2 = None →
     r.1.1 = {| MountLocation := MountLocation d; Config := Config d;
                currentCmd := None; isRunning := false |})
  ∧ (is_Some r.1.2 ↔
       is_Some (proc_Signal os p SIGTERM) ∧ is_Some (proc_Kill os p))
  ∧ (is_Some r.1.2 → r.1.1 = d)
  ∧ (proc_Signal os p SIGTERM = None →
       r.2 = ASignal p SIGTERM :: AWait cmd (5 * Second)
             :: (if cmd_Wait_within os cmd (5 * Second) then [] else [AKill p])).
Proof.
  intros Hcmd Hproc r. unfold r, Kill. rewrite Hcmd, Hproc, bind_act.
  destruct (proc_Signal os p SIGTERM) as [e1|];
    [rewrite bind_act; destruct (proc_Kill os p) as [e2|]|];
    cbn [fst snd ret]; rewrite ?Kill_wait_result, ?Kill_wait_trace; cbn [fst snd];
    split_and!; try done; unfold is_Some;
    try (split; [intros [? ?]|intros [[? ?] [? ?]]]); try (intros [? ?]);
    try discriminate; eauto.
Qed.

End kill_facts.

(** [Kill] on concrete supervisors. *)

Lemma Kill_idle_noop_witness :
  Kill sample.os_calm (sample.idle "src") = (sample.idle "src", None, []).
Proof. apply (Kill_idle_noop sample.os_calm (sample.idle "src")). by left. Defined.

(** C1, the claim as it stands fails: the child has already exited, so
    the signal and the forced termination are both refused; [Kill] returns
    the error and the handle and the running flag stay set. *)
Lemma Kill_error_keeps_handle :
  currentCmd (sample.running "src") = Some sample.child_cmd
  ∧ cmd_Process sample.child_cmd = Some sample.child
  ∧ Kill sample.os_gone (sample.running "src")
    = (sample.running "src",
       Some "failed to kill process: os: process already finished",
       [ASignal sample.child SIGTERM; AKill sample.child])
  ∧ currentCmd (Kill sample.os_gone (sample.running "src")).1.1 ≠ None
  ∧ isRunning (Kill sample.os_gone (sample.running "src")).1.1 ≠ false.
Proof. split_and!; done. Qed.

Lemma Kill_clears_on_success_witness :
  (Kill sample.os_calm (sample.running "src")).1.2 = None
  ∧ (Kill sample.os_calm (sample.running "src")).1.1 = sample.idle "src".
Proof.
  split; [reflexivity|].
  apply (proj1 (Kill_clears_on_success sample.os_calm (sample.running "src")
                  sample.child_cmd sample.child eq_refl eq_refl)).
  reflexivity.
Defined.

(** The three paths on which [Kill] clears the state. *)
Example Kill_graceful :
  Kill sample.os_calm (sample.running "src")
  = (sample.idle "src", None,
     [ASignal sample.child SIGTERM; AWait sample.child_cmd (5 * Second)]).
Proof. reflexivity. Qed.

Example Kill_forced_after_grace :
  Kill (sample.os None None false (Ok sample.child) None) (sample.running "src")
  = (sample.idle "src", None,
     [ASignal sample.child SIGTERM; AWait sample.child_cmd (5 * Second);
      AKill sample.child]).
Proof. reflexivity. Qed.

Example Kill_signal_refused :
  Kill (sample.os (Some "operation not permitted") None true (Ok sample.child) None)
       (sample.running "src")
  = (sample.idle "src", None,
     [ASignal sample.child SIGTERM; AKill sample.child;
      AWait sample.child_cmd (5 * Second)]).
Proof. reflexivity. Qed.

(** ** The mirror copy *)

Section copy_facts.
Variable Rel : string → string → option string.
Implicit Types (os : OS) (e : WalkEntry) (a : Action).

Lemma copy_walk_Walk os src dst entries t0 :
  Walk entries
       (λ e t, let '(err, t') := copy_entry Rel os src dst e in (t ++ t', err)) t0
  = (t0 ++ (copy_walk Rel os src dst entries).2, (copy_walk Rel os src dst entries).1).
Proof.
  revert t0. induction entries as [|e entries IH]; intros t0.
  - cbn. by rewrite app_nil_r.
  - cbn [Walk copy_walk]. rewrite bind_fst, bind_snd.
    destruct (copy_entry Rel os src dst e) as [[err|] t'] eqn:He; cbn [fst snd].
    + cbn. by rewrite app_nil_r.
    + rewrite IH. by rewrite <- app_assoc.
Qed.

Lemma copyDir_spec os src dst :
  copyDir Rel os src dst =
    match os_MkdirAll os dst perm_0755 with
    | Some err => (Some err, [AMkdirAll dst perm_0755])
    | None => ((copy_walk Rel os src dst (os_Walk os src)).1,
               AMkdirAll dst perm_0755 :: (copy_walk Rel os src dst (os_Walk os src)).2)
    end.
Proof.
  unfold copyDir. rewrite bind_act.
  destruct (os_MkdirAll os dst perm_0755); [done|].
  by rewrite copy_walk_Walk.
Qed.

(** What one entry makes [copyDir] call. *)
Lemma copy_entry_actions os src dst e a :
  a ∈ (copy_entry Rel os src dst e).2 →
  ∃ relPath, Rel src (w_path e) = Some relPath ∧
    if info_IsDir (w_info e)
    then a = AMkdirAll (filepath.Join [dst; relPath]) (info_Mode (w_info e))
    else a = AReadFile (w_path e)
         ∨ ∃ data, a = AWriteFile (filepath.Join [dst; relPath]) data perm_0644.
Proof.
  unfold copy_entry.
  destruct (w_err e); [by intros ?%elem_of_nil|].
  destruct (Rel src (w_path e)) as [relPath|]; [|by intros ?%elem_of_nil].
  intros Ha. exists relPath. split; [done|].
  destruct (info_IsDir (w_info e)).
  - by apply list_elem_of_singleton in Ha.
  - unfold copyFile in Ha. rewrite bind_act in Ha. cbn [snd] in Ha.
    apply elem_of_cons in Ha as [->|Ha]; [by left|]. right.
    destruct (os_ReadFile os (w_path e)) as [data|err].
    + apply list_elem_of_singleton in Ha. by exists data.
    + by apply elem_of_nil in Ha.
Qed.

(** What an entry copied without error has made [copyDir] call. *)
Lemma copy_entry_ok os src dst e :
  (copy_entry Rel os src dst e).1 = None →
  ∃ relPath, Rel src (w_path e) = Some relPath ∧
    if info_IsDir (w_info e)
    then AMkdirAll (filepath.Join [dst; relPath]) (info_Mode (w_info e))
           ∈ (copy_entry Rel os src dst e).2
    else ∃ data, os_ReadFile os (w_path e) = Ok data
           ∧ AWriteFile (filepath.Join [dst; relPath]) data perm_0644
               ∈ (copy_entry Rel os src dst e).2.
Proof.
  unfold copy_entry.
  destruct (w_err e); [done|].
  destruct (Rel src (w_path e)) as [relPath|]; [|done].
  intros Hok. exists relPath. split; [done|].
  destruct (info_IsDir (w_info e)).
  - apply list_elem_of_singleton. done.
  - unfold copyFile in *. rewrite bind_act in *. cbn [fst snd] in *.
    destruct (os_ReadFile os (w_path e)) as [data|err]; [|done].
    exists data. split; [done|]. apply elem_of_cons. right.
    by apply list_elem_of_singleton.
Qed.

Lemma copy_walk_actions os src dst entries a :
  a ∈ (copy_walk Rel os src dst entries).2 →
  ∃ e, e ∈ entries ∧ a ∈ (copy_entry Rel os src dst e).2.
Proof.
  induction entries as [|e entries IH]; [by intros ?%elem_of_nil|].
  cbn [copy_walk]. rewrite bind_snd. intros [Ha|Ha]%elem_of_app.
  - exists e. split; [by apply elem_of_cons; left|done].
  - destruct (copy_entry Rel os src dst e).1; [by apply elem_of_nil in Ha|].
    destruct (IH Ha) as (e' & He' & Ha'). exists e'.
    split; [by apply elem_of_cons; right|done].
Qed.

Lemma copy_walk_ok os src dst entries e a :
  (copy_walk Rel os src dst entries).1 = None →
  e ∈ entries →
  (copy_entry Rel os src dst e).1 = None
  ∧ (a ∈ (copy_entry Rel os src dst e).2 → a ∈ (copy_walk Rel os src dst entries).2).
Proof.
  induction entries as [|e' entries IH]; [by intros _ ?%elem_of_nil|].
  cbn [copy_walk]. rewrite bind_fst, bind_snd. intros Hok Hin.
  destruct (copy_entry Rel os src dst e').1 eqn:He'; [done|].
  apply elem_of_cons in Hin as [->|Hin].
  - split; [done|]. intros Ha. apply elem_of_app. by left.
  - destruct (IH Hok Hin) as [Hnone Hsub]. split; [done|].
    intros Ha. apply elem_of_app. right. by apply Hsub.
Qed.

End copy_facts.

(** ** Deploy *)

Section deploy_facts.
Variable Rel : string → string → option string.
Implicit Types (os : OS) (d : Deployer).

Lemma copyDir_no_start os src dst cmd :
  AStart cmd ∉ (copyDir Rel os src dst).2.
Proof.
  rewrite copyDir_spec. intros Hin.
  assert (AStart cmd ∈ (copy_walk Rel os src dst (os_Walk os src)).2) as Hw.
  { destruct (os_MkdirAll os dst perm_0755); cbn [snd] in Hin.
    - apply list_elem_of_singleton in Hin. discriminate.
    - apply elem_of_cons in Hin as [?|?]; [discriminate|done]. }
  apply copy_walk_actions in Hw as (e & _ & Ha).
  apply copy_entry_actions in Ha as (relPath & _ & Ha).
  destruct (info_IsDir (w_info e)); [discriminate|].
  destruct Ha as [?|[? ?]]; discriminate.
Qed.

(** [Deploy], by the answers of the copy and of the start. *)
Lemma Deploy_spec os d :
  let copied :=
    copyDir Rel os (filepath.Join [MountLocation d; SourceLocation (Config d)])
            (DeployLocation (Config d)) in
  Deploy Rel os d =
    match copied.1 with
    | Some err => (d, Some ("failed to copy source: " +:+ err), copied.2)
    | None =>
        match cmd_Start os (deploy_cmd os d) with
        | Err err =>
            (d, Some ("failed to start executable: " +:+ err),
             copied.2 ++ [AStart (deploy_cmd os d)])
        | Ok p =>
            ({| MountLocation := MountLocation d; Config := Config d;
                currentCmd := Some (started (deploy_cmd os d) p);
                isRunning := true |}, None,
             copied.2 ++ [AStart (deploy_cmd os d); AMonitor p])
        end
    end.
Proof.
  intros copied. unfold Deploy. fold copied.
  destruct copied as [[err|] t]; cbn [bind fst snd ret].
  - by rewrite app_nil_r.
  - destruct (cmd_Start os (deploy_cmd os d)); cbn; done.
Qed.

(** C2. When the copy fails, or the child fails to start, [Deploy]
    returns an error and the supervisor is as before: the handle and the
    running flag are unchanged, so no handle is recorded and a flag that
    was false remains false; after a failed copy nothing was called beyond
    the copy, so no process was started. *)
Theorem Deploy_failure_keeps_state os d :
  let copied :=
    copyDir Rel os (filepath.Join [MountLocation d; SourceLocation (Config d)])
            (DeployLocation (Config d)) in
  is_Some copied.1 ∨ (∃ err, cmd_Start os (deploy_cmd os d) = Err err) →
  ∃ err,
    (Deploy Rel os d).1 = (d, Some err)
    ∧ currentCmd (Deploy Rel os d).1.1 = currentCmd d
    ∧ isRunning (Deploy Rel os d).1.1 = isRunning d
    ∧ (currentCmd d = None → currentCmd (Deploy Rel os d).1.1 = None)
    ∧ (isRunning d = false → isRunning (Deploy Rel os d).1.1 = false)
    ∧ (is_Some copied.1 →
         (Deploy Rel os d).2 = copied.2
         ∧ ∀ cmd, AStart cmd ∉ (Deploy Rel os d).2).
Proof.
  intros copied Hfail. rewrite Deploy_spec. fold copied.
  destruct copied.1 as [err|] eqn:Hcopy.
  - eexists. split_and!; try done. intros _. split; [done|].
    intros cmd. cbn [snd]. apply copyDir_no_start.
  - destruct Hfail as [[? ?]|[err Herr]]; [done|]. rewrite Herr.
    eexists. split_and!; done.
Qed.

(** The other outcome: the copy and the start succeed, the handle is
    recorded with its process and the running flag is set. *)
Lemma Deploy_success os d p :
  (copyDir Rel os (filepath.Join [MountLocation d; SourceLocation (Config d)])
           (DeployLocation (Config d))).1 = None →
  cmd_Start os (deploy_cmd os d) = Ok p →
  (Deploy Rel os d).1
  = ({| MountLocation := MountLocation d; Config := Config d;
        currentCmd := Some (started (deploy_cmd os d) p); isRunning := true |}, None).
Proof. intros Hcopy Hstart. rewrite Deploy_spec. by rewrite Hcopy, Hstart. Qed.

(** C10. Every file the mirror copy writes is written with permission
    0644, whatever the mode of the source file; a directory is made with
    permission 0755 for the destination itself and otherwise with the mode
    of the source directory it mirrors. When the copy returns nil, every
    directory of the walk was made with its own mode and every file was
    written, from the bytes read, with 0644. The files written by [Deploy]
    are those of its copy. *)
Theorem copy_modes os src dst :
  let copied := copyDir Rel os src dst in
  (∀ path data perm, AWriteFile path data perm ∈ copied.2 → perm = perm_0644)
  ∧ (∀ path perm, AMkdirAll path perm ∈ copied.2 →
       (path = dst ∧ perm = perm_0755)
       ∨ ∃ e relPath,
           e ∈ os_Walk os src ∧ info_IsDir (w_info e) = true
           ∧ Rel src (w_path e) = Some relPath
           ∧ path = filepath.Join [dst; relPath] ∧ perm = info_Mode (w_info e))
  ∧ (copied.1 = None → ∀ e, e ∈ os_Walk os src →
       ∃ relPath, Rel src (w_path e) = Some relPath ∧
         if info_IsDir (w_info e)
         then AMkdirAll (filepath.Join [dst; relPath]) (info_Mode (w_info e)) ∈ copied.2
         else ∃ data, os_ReadFile os (w_path e) = Ok data
                ∧ AWriteFile (filepath.Join [dst; relPath]) data perm_0644 ∈ copied.2)
  ∧ (∀ d path data perm, AWriteFile path data perm ∈ (Deploy Rel os d).2 →
       perm = perm_0644
       ∧ AWriteFile path data perm
           ∈ (copyDir Rel os
                (filepath.Join [MountLocation d; SourceLocation (Config d)])
                (DeployLocation (Config d))).2).
Proof.
  assert (∀ src dst path data perm,
            AWriteFile path data perm ∈ (copyDir Rel os src dst).2 →
            perm = perm_0644) as Hwrite.
  { clear src dst. intros src dst path data perm. rewrite copyDir_spec. intros Hin.
    assert (AWriteFile path data perm
              ∈ (copy_walk Rel os src dst (os_Walk os src)).2) as Hw.
    { destruct (os_MkdirAll os dst perm_0755); cbn [snd] in Hin.
      - apply list_elem_of_singleton in Hin. discriminate.
      - apply elem_of_cons in Hin as [?|?]; [discriminate|done]. }
    apply copy_walk_actions in Hw as (e & _ & Ha).
    apply copy_entry_actions in Ha as (relPath & _ & Ha).
    destruct (info_IsDir (w_info e)); [discriminate|].
    destruct Ha as [?|[? Heq]]; [discriminate|]. by injection Heq. }
  intros copied. split_and!.
  - apply Hwrite.
  - intros path perm. unfold copied. rewrite copyDir_spec. intros Hin.
    assert (AMkdirAll path perm = AMkdirAll dst perm_0755
            ∨ AMkdirAll path perm ∈ (copy_walk Rel os src dst (os_Walk os src)).2)
      as [Heq|Hw].
    { destruct (os_MkdirAll os dst perm_0755); cbn [snd] in Hin.
      - apply list_elem_of_singleton in Hin. by left.
      - apply elem_of_cons in Hin as [?|?]; [by left|by right]. }
    + left. by injection Heq.
    + right. apply copy_walk_actions in Hw as (e & He & Ha).
      apply copy_entry_actions in Ha as (relPath & Hrel & Ha).
      destruct (info_IsDir (w_info e)) eqn:Hdir.
      * injection Ha as -> ->. by exists e, relPath.
      * destruct Ha as [?|[? ?]]; discriminate.
  - unfold copied. rewrite copyDir_spec.
    destruct (os_MkdirAll os dst perm_0755); [done|]. cbn [fst snd].
    intros Hok e He.
    destruct (copy_walk_ok Rel os src dst (os_Walk os src) e
                (AMkdirAll (filepath.Join [dst; "."]) 0) Hok He) as [Hnone _].
    destruct (copy_entry_ok Rel os src dst e Hnone) as (relPath & Hrel & Hdone).
    exists relPath. split; [done|].
    destruct (info_IsDir (w_info e)).
    + apply elem_of_cons. right.
      by apply (copy_walk_ok Rel os src dst (os_Walk os src) e _ Hok He).
    + destruct Hdone as (data & Hread & Hin). exists data. split; [done|].
      apply elem_of_cons. right.
      by apply (copy_walk_ok Rel os src dst (os_Walk os src) e _ Hok He).
  - intros d path data perm. rewrite Deploy_spec.
    set (c := copyDir Rel os _ _).
    assert (AWriteFile path data perm ∈ c.2 →
            perm = perm_0644 ∧ AWriteFile path data perm ∈ c.2) as Hc.
    { intros Hin. split; [|done]. by apply Hwrite in Hin. }
    destruct c.1; [exact Hc|].
    destruct (cmd_Start os (deploy_cmd os d)); cbn [snd];
      intros [Hin|Hin]%elem_of_app; try (by apply Hc);
      repeat (apply elem_of_cons in Hin as [?|Hin]; [discriminate|]);
      by apply elem_of_nil in Hin.
Qed.

End deploy_facts.

(** ** Handle: the classification of events *)

Section handle_facts.
Variable Rel : string → string → option string.
Implicit Types (os : OS) (d : Deployer) (event : FileChangeEvent).

(** [reloadConfig] keeps the previous configuration unless the file is
    read and parsed; it touches nothing else. *)
Lemma reloadConfig_spec os d :
  (reloadConfig os d).1 =
    {| MountLocation := MountLocation d;
       Config :=
         match os_ReadFile os (filepath.Join [MountLocation d; CONFIG_ID]) with
         | Ok data =>
             match json_Unmarshal os data with
             | Ok config => config
             | Err _ => Config d
             end
         | Err _ => Config d
         end;
       currentCmd := currentCmd d; isRunning := isRunning d |}.
Proof.
  unfold reloadConfig, LoadDeployConfig, read_config.
  rewrite !bind_fst. cbn [act fst].
  destruct (os_ReadFile os _) as [data|err]; cbn [ret fst]; [|by destruct d].
  destruct (json_Unmarshal os data) as [config|err]; cbn [ret fst]; [done|by destruct d].
Qed.

(** With [panicOnFailure] unset the loader never panics; with it set it
    never returns nil. *)
Lemma LoadDeployConfig_outcomes os share :
  (∀ msg, (LoadDeployConfig os share false).1 ≠ Panicked msg)
  ∧ (LoadDeployConfig os share true).1 ≠ Returned None.
Proof.
  unfold LoadDeployConfig. rewrite !bind_fst.
  destruct (read_config os share).1; cbn; split; congruence.
Qed.

(** A redeploy always pauses between [Kill] and [Deploy]. *)
Lemma redeploy_quietly_sleeps os d :
  ASleep (500 * Millisecond) ∈ (redeploy_quietly Rel os d).2.
Proof.
  unfold redeploy_quietly, Redeploy. rewrite !bind_snd. cbn [act snd].
  apply elem_of_app. left. apply elem_of_app. right.
  apply elem_of_cons. by left.
Qed.

(** The source test is a prefix test on the two cleaned strings. *)
Lemma isSourceFile_spec d relPath :
  isSourceFile d relPath
  = String.prefix (filepath.Clean (SourceLocation (Config d))) (filepath.Clean relPath).
Proof. done. Qed.

(** C7 (as amended). An event on the configuration file reloads the
    configuration (the previous one is kept when the file cannot be read
    or parsed) and then redeploys, whatever the reload gave. Any other
    event redeploys when the cleaned relative path has the cleaned source
    location as a string prefix, and otherwise calls nothing and leaves
    the supervisor as it is. *)
Theorem Handle_classifies os event d :
  let in_source :=
    filepath.HasPrefix (filepath.Clean (RelPath event))
                       (filepath.Clean (SourceLocation (Config d))) in
  (RelPath event = CONFIG_ID →
     Handle Rel os event d
     = (do d' <- reloadConfig os d; redeploy_quietly Rel os d')
     ∧ (reloadConfig os d).1 =
         {| MountLocation := MountLocation d;
            Config :=
              match os_ReadFile os (filepath.Join [MountLocation d; CONFIG_ID]) with
              | Ok data =>
                  match json_Unmarshal os data with
                  | Ok config => config
                  | Err _ => Config d
                  end
              | Err _ => Config d
              end;
            currentCmd := currentCmd d; isRunning := isRunning d |})
  ∧ (RelPath event ≠ CONFIG_ID → in_source = true →
       Handle Rel os event d = redeploy_quietly Rel os d)
  ∧ (RelPath event ≠ CONFIG_ID → in_source = false →
       Handle Rel os event d = (d, [])).
Proof.
  intros in_source. unfold Handle. split_and!.
  - intros Hcfg. rewrite bool_decide_eq_true_2 by done.
    split; [done|apply reloadConfig_spec].
  - intros Hcfg Hsrc. rewrite bool_decide_eq_false_2 by done.
    unfold isSourceFile. fold in_source. by rewrite Hsrc.
  - intros Hcfg Hsrc. rewrite bool_decide_eq_false_2 by done.
    unfold isSourceFile. fold in_source. by rewrite Hsrc.
Qed.

(** On cleaned paths the two classifications agree. *)
Lemma Handle_raw_prefix_clean os event d :
  filepath.Clean (RelPath event) = RelPath event →
  filepath.Clean (SourceLocation (Config d)) = SourceLocation (Config d) →
  Handle Rel os event d = Handle_raw_prefix Rel os event d.
Proof.
  intros Hrel Hsrc. unfold Handle, Handle_raw_prefix, isSourceFile.
  by rewrite Hrel, Hsrc.
Qed.

Lemma string_prefix_spec (p s : string) :
  String.prefix p s = true ↔ ∃ rest, s = p +:+ rest.
Proof.
  revert s. induction p as [|a p IH]; intros [|b s]; cbn.
  - split; [intros _; by exists ""|done].
  - split; [intros _; by exists (String b s)|done].
  - split; [done|]. by intros [? ?].
  - destruct (Ascii.ascii_dec a b) as [->|Hne].
    + rewrite IH. split.
      * intros [rest ->]. by exists rest.
      * intros [rest [= ->]]. by exists rest.
    + split; [done|]. intros [rest [= ? _]]. done.
Qed.

(** C9. The source test is a plain string-prefix test on the two cleaned
    paths: a relative path counts as a source file exactly when its
    cleaned form is the cleaned source location followed by any string at
    all, and every such event (other than on the configuration file)
    redeploys. It is not a test on path elements: with the source location
    [src], the path [srcfoo/x], which is not inside the directory [src],
    counts as a source file and its events redeploy. *)
Theorem isSourceFile_not_by_element os event d :
  (∀ relPath,
     isSourceFile d relPath
     = String.prefix (filepath.Clean (SourceLocation (Config d)))
                     (filepath.Clean relPath))
  ∧ (∀ relPath,
       isSourceFile d relPath = true ↔
       ∃ rest, filepath.Clean relPath
               = filepath.Clean (SourceLocation (Config d)) +:+ rest)
  ∧ (RelPath event ≠ CONFIG_ID →
       (∃ rest, filepath.Clean (RelPath event)
                = filepath.Clean (SourceLocation (Config d)) +:+ rest) →
       Handle Rel os event d = redeploy_quietly Rel os d
       ∧ ASleep (500 * Millisecond) ∈ (Handle Rel os event d).2)
  ∧ (SourceLocation (Config d) = "src" →
     RelPath event = "srcfoo/x" →
     filepath.inside (SourceLocation (Config d)) (RelPath event) = false
     ∧ isSourceFile d (RelPath event) = true
     ∧ Handle Rel os event d = redeploy_quietly Rel os d
     ∧ ASleep (500 * Millisecond) ∈ (Handle Rel os event d).2).
Proof.
  assert (∀ relPath,
            isSourceFile d relPath = true ↔
            ∃ rest, filepath.Clean relPath
                    = filepath.Clean (SourceLocation (Config d)) +:+ rest) as Hiff.
  { intros relPath. unfold isSourceFile, filepath.HasPrefix.
    apply string_prefix_spec. }
  assert (RelPath event ≠ CONFIG_ID →
          isSourceFile d (RelPath event) = true →
          Handle Rel os event d = redeploy_quietly Rel os d
          ∧ ASleep (500 * Millisecond) ∈ (Handle Rel os event d).2) as Hredeploy.
  { intros Hcfg Hsrc.
    assert (Handle Rel os event d = redeploy_quietly Rel os d) as HH.
    { unfold Handle. rewrite bool_decide_eq_false_2 by done. by rewrite Hsrc. }
    split; [done|]. rewrite HH. apply redeploy_quietly_sleeps. }
  split_and!.
  - done.
  - exact Hiff.
  - intros Hcfg Hpre. apply Hredeploy; [done|]. by apply Hiff.
  - intros Hsrc Hrel.
    assert (isSourceFile d (RelPath event) = true) as Hin.
    { apply Hiff. rewrite Hsrc, Hrel. by exists "foo/x". }
    split_and!; [by rewrite Hsrc, Hrel; vm_compute|done| |];
      apply Hredeploy; try done; by rewrite Hrel.
Qed.

End handle_facts.

(** ** The supervisor on concrete runs *)

Lemma Deploy_failure_keeps_state_witness :
  ∃ err,
    (Deploy filepath.Rel_under sample.os_no_start (sample.idle "src")).1
    = (sample.idle "src", Some err)
    ∧ currentCmd (Deploy filepath.Rel_under sample.os_no_start (sample.idle "src")).1.1
      = None
    ∧ isRunning (Deploy filepath.Rel_under sample.os_no_start (sample.idle "src")).1.1
      = false.
Proof.
  destruct (Deploy_failure_keeps_state filepath.Rel_under sample.os_no_start
              (sample.idle "src")) as (err & Hret & _ & _ & Hcmd & Hrun & _).
  - right. by eexists.
  - exists err. split_and!; [exact Hret|by apply Hcmd|by apply Hrun].
Defined.

(** A failed copy: the destination cannot be made, nothing is started. *)
Example Deploy_copy_refused :
  Deploy filepath.Rel_under
         (sample.os None None true (Ok sample.child) (Some "permission denied"))
         (sample.idle "src")
  = (sample.idle "src", Some "failed to copy source: permission denied",
     [AMkdirAll "/opt/app" perm_0755]).
Proof. reflexivity. Qed.

(** A deployment that works: the script, executable at the source, is
    written with 0644; the directories are made with the source modes. *)
Example Deploy_calm :
  Deploy filepath.Rel_under sample.os_calm (sample.idle "src")
  = ({| MountLocation := sample.share; Config := sample.config "src";
        currentCmd := Some (started (deploy_cmd sample.os_calm (sample.idle "src"))
                                    sample.child);
        isRunning := true |}, None,
     [AMkdirAll "/opt/app" perm_0755;
      AMkdirAll "/opt/app" (Z.lor ModeDir perm_0755);
      AMkdirAll "/opt/app/bin" (Z.lor ModeDir (7 * 64));
      AReadFile "/mnt/agent/src/bin/run.sh";
      AWriteFile "/opt/app/bin/run.sh" "data" perm_0644;
      AStart (deploy_cmd sample.os_calm (sample.idle "src"));
      AMonitor sample.child]).
Proof. vm_compute. reflexivity. Qed.

(** C7, the claim as it stands fails. With an empty source location every
    relative path has it as a prefix, yet the event is dropped: the cleaned
    source location is a dot. With the source location [src/] the path
    [srcfoo/x] does not have it as a prefix, yet the event redeploys. *)
Lemma Handle_differs_from_raw_prefix :
  let event (relPath : string) :=
    {| RelPath := relPath; FullPath := "/mnt/agent/" +:+ relPath;
       ChangeType := "modified"; Size := 1; ModTime := sample.t1 |} in
  (RelPath (event "a.txt") ≠ CONFIG_ID
   ∧ filepath.HasPrefix (RelPath (event "a.txt"))
                        (SourceLocation (Config (sample.idle ""))) = true
   ∧ Handle filepath.Rel_under sample.os_calm (event "a.txt") (sample.idle "")
     = (sample.idle "", [])
   ∧ Handle_raw_prefix filepath.Rel_under sample.os_calm (event "a.txt") (sample.idle "")
     ≠ (sample.idle "", []))
  ∧ (RelPath (event "srcfoo/x") ≠ CONFIG_ID
     ∧ filepath.HasPrefix (RelPath (event "srcfoo/x"))
                          (SourceLocation (Config (sample.idle "src/"))) = false
     ∧ Handle filepath.Rel_under sample.os_calm (event "srcfoo/x") (sample.idle "src/")
       ≠ (sample.idle "src/", [])
     ∧ ASleep (500 * Millisecond)
         ∈ (Handle filepath.Rel_under sample.os_calm (event "srcfoo/x")
              (sample.idle "src/")).2).
Proof.
  intros event. split_and!;
    first [ by vm_compute
          | vm_compute; discriminate
          | apply (bool_decide_unpack _); vm_compute; exact I ].
Qed.

(** A changed configuration file that cannot be parsed: the previous
    configuration stays, and the supervisor redeploys all the same. *)
Example Handle_config_unparsable :
  let event := {| RelPath := CONFIG_ID; FullPath := "/mnt/agent/deploy.json";
                  ChangeType := "modified"; Size := 1; ModTime := sample.t1 |} in
  let r := Handle filepath.Rel_under sample.os_calm event (sample.running "src") in
  Config r.1 = sample.config "src"
  ∧ isRunning r.1 = true
  ∧ take 4 r.2 = [AReadFile "/mnt/agent/deploy.json"; ASignal sample.child SIGTERM;
                  AWait sample.child_cmd (5 * Second); ASleep (500 * Millisecond)].
Proof. vm_compute. done. Qed.

Lemma isSourceFile_not_by_element_witness :
  filepath.inside "src" "srcfoo/x" = false
  ∧ isSourceFile (sample.idle "src") "srcfoo/x" = true
  ∧ ASleep (500 * Millisecond)
      ∈ (Handle filepath.Rel_under sample.os_calm
           {| RelPath := "srcfoo/x"; FullPath := "/mnt/agent/srcfoo/x";
              ChangeType := "created"; Size := 1; ModTime := sample.t1 |}
           (sample.idle "src")).2.
Proof.
  destruct (isSourceFile_not_by_element filepath.Rel_under sample.os_calm
              {| RelPath := "srcfoo/x"; FullPath := "/mnt/agent/srcfoo/x";
                 ChangeType := "created"; Size := 1; ModTime := sample.t1 |}
              (sample.idle "src")) as (_ & _ & _ & Hinstance).
  destruct (Hinstance eq_refl eq_refl) as (Hout & Hsrc & _ & Hsleep).
  split_and!; [exact Hout|exact Hsrc|exact Hsleep].
Defined.


(** ** The watcher driving the supervisor *)

(** The exit monitor touches the running flag only. *)
Lemma monitor_exit_keeps_handle (d : Deployer) :
  currentCmd (monitor_exit d) = currentCmd d
  ∧ Config (monitor_exit d) = Config d
  ∧ isRunning (monitor_exit d) = false.
Proof. done. Qed.

(** The supervisor subscribed to the watcher, as [main] sets them up: the
    initial scan and a change outside the source directory start nothing; a
    change of the script deploys it. *)
Example watcher_drives_supervisor :
  let fw := Subscribe (NewFileWatcher sample.share (5 * Second))
              (Handle_subscriber filepath.Rel_under sample.os_calm) in
  let p := pollloop filepath.Rel_under range_canonical fw
             (sample.tree_src 12 sample.t0 1)
             [sample.tree_src 12 sample.t0 2; sample.tree_src 15 sample.t1 2]
             (sample.idle "src", []) in
  map (map RelPath) (poll_events p) = [[]; ["notes.txt"]; ["src/bin/run.sh"]]
  ∧ isRunning (poll_world p).1 = true
  ∧ currentCmd (poll_world p).1
    = Some (started (deploy_cmd sample.os_calm (sample.idle "src")) sample.child)
  ∧ (poll_world p).2 =
      [ASleep (500 * Millisecond);
       AMkdirAll "/opt/app" perm_0755;
       AMkdirAll "/opt/app" (Z.lor ModeDir perm_0755);
       AMkdirAll "/opt/app/bin" (Z.lor ModeDir (7 * 64));
       AReadFile "/mnt/agent/src/bin/run.sh";
       AWriteFile "/opt/app/bin/run.sh" "data" perm_0644;
       AStart (deploy_cmd sample.os_calm (sample.idle "src"));
       AMonitor sample.child].
Proof. vm_compute. done. Qed.

(** * Further properties of the watcher *)

(** ** The event bus: order of delivery *)

Section bus_order.
Context {W : Type}.
Implicit Types (fw : @FileWatcher W) (b : @Bus W) (event : FileChangeEvent).

Lemma call_handlers_world event (l : list (nat * @FileChangeHandler W)) b :
  world (foldl (call_handler event) b l)
  = foldl (λ w (h : @FileChangeHandler W), h event w) (world b) l.*2.
Proof. revert b. induction l as [|ih l IH]; intros b; [done|]. cbn. by rewrite IH. Qed.

Lemma imap_pair_snd (l : list (@FileChangeHandler W)) : (imap pair l).*2 = l.
Proof.
  rewrite fmap_imap.
  rewrite (imap_ext _ (λ _ h, h)) by done.
  induction l as [|h l IH]; [done|]. rewrite imap_cons. f_equal.
  rewrite <- IH at 2. by apply imap_ext.
Qed.

Lemma imap_pair_numbers event (l : list (@FileChangeHandler W)) :
  (λ ih : nat * @FileChangeHandler W, (S ih.1, event)) <$> imap pair l
  = (λ i, (i, event)) <$> seq 1 (List.length l).
Proof.
  rewrite fmap_imap.
  rewrite (imap_ext _ (λ j _, (λ i, (i, event)) (1 + j)%nat)) by done.
  apply (imap_seq l (λ i, (i, event)) 1).
Qed.

Lemma Notify_world fw event b :
  world (Notify fw event b)
  = foldl (λ w (h : @FileChangeHandler W), h event w) (world b) (subscribers fw).
Proof.
  unfold Notify. rewrite call_handlers_world. cbn [world]. by rewrite imap_pair_snd.
Qed.

(** X1. [Notify] hands the event to every subscriber, once each, in the
    order of registration, each handler acting on the world the previous
    one left; the subscribers are numbered from one. *)
Theorem Notify_in_order fw event b :
  world (Notify fw event b)
  = foldl (λ w (h : @FileChangeHandler W), h event w) (world b) (subscribers fw)
  ∧ notified (Notify fw event b) = notified b ++ [event]
  ∧ delivered (Notify fw event b)
    = delivered b ++ ((λ i, (i, event)) <$> seq 1 (List.length (subscribers fw))).
Proof.
  split_and!.
  - apply Notify_world.
  - apply Notify_notified.
  - rewrite Notify_delivered. unfold deliveries. by rewrite imap_pair_numbers.
Qed.

(** X2. A handler subscribed last is called last: notifying after
    [Subscribe] is notifying before it, and then calling the new handler,
    under the next subscriber number. *)
Theorem Subscribe_then_Notify fw (handler : @FileChangeHandler W) event b :
  Notify (Subscribe fw handler) event b
  = call_handler event (Notify fw event b) (List.length (subscribers fw), handler)
  ∧ world (Notify (Subscribe fw handler) event b)
    = handler event (world (Notify fw event b)).
Proof.
  assert (Notify (Subscribe fw handler) event b
          = call_handler event (Notify fw event b)
              (List.length (subscribers fw), handler))
    as Heq.
  { unfold Notify, Subscribe. cbn [subscribers].
    rewrite imap_app, foldl_app. cbn. by rewrite Nat.add_0_r. }
  split; [done|]. by rewrite Heq.
Qed.

Lemma notify_all_world fw events b :
  world (notify_all fw events b)
  = foldl (λ w event,
             foldl (λ w (h : @FileChangeHandler W), h event w) w (subscribers fw))
          (world b) events.
Proof.
  unfold notify_all. revert b.
  induction events as [|event events IH]; intros b; cbn [foldl]; [done|].
  rewrite IH. by rewrite Notify_world.
Qed.

End bus_order.

(** ** The change detector: what else a scan guarantees *)

Section detector_more.
Context {W : Type}.
Variable Rel : string → string → option string.
Variable ro : RangeOrder.
Implicit Types (fw : @FileWatcher W) (w : W) (e : WalkEntry).
Implicit Types (knownFiles : gmap string FileState) (p : string).
Implicit Types (listing : list WalkEntry) (ticks : list (list WalkEntry)).

Lemma scan_entry_is_Some sharePath e :
  is_Some (scan_entry Rel sharePath e) ↔
  w_err e = None ∧ info_IsDir (w_info e) = false
  ∧ is_Some (Rel sharePath (w_path e)).
Proof.
  unfold scan_entry.
  destruct (w_err e), (info_IsDir (w_info e)), (Rel sharePath (w_path e));
    split; try (intros [? ?]; done); try (intros (? & ? & [? ?]); done);
    try (intros _; split_and!; eauto; done).
Qed.

Lemma omap_scan_entry_filter sharePath listing :
  omap (scan_entry Rel sharePath)
       (filter (λ e, w_err e = None ∧ info_IsDir (w_info e) = false
                     ∧ is_Some (Rel sharePath (w_path e))) listing)
  = omap (scan_entry Rel sharePath) listing.
Proof.
  induction listing as [|e listing IH]; [done|].
  rewrite filter_cons. case_decide as Hrec.
  - cbn [omap list_omap]. by rewrite IH.
  - rewrite IH. cbn [omap list_omap].
    destruct (scan_entry Rel sharePath e) eqn:He; [|done].
    exfalso. apply Hrec, scan_entry_is_Some. rewrite He. by eexists.
Qed.

Lemma walk_events_filter sharePath knownFiles isInitial listing :
  walk_events Rel sharePath knownFiles isInitial
    (filter (λ e, w_err e = None ∧ info_IsDir (w_info e) = false
                  ∧ is_Some (Rel sharePath (w_path e))) listing)
  = walk_events Rel sharePath knownFiles isInitial listing.
Proof.
  induction listing as [|e listing IH]; [done|].
  rewrite filter_cons. case_decide as Hrec.
  - rewrite !walk_events_cons. by rewrite IH.
  - rewrite IH, walk_events_cons.
    destruct (scan_entry Rel sharePath e) eqn:He; [|done].
    exfalso. apply Hrec, scan_entry_is_Some. rewrite He. by eexists.
Qed.

Lemma walk_events_elem_of sharePath knownFiles isInitial listing event :
  event ∈ walk_events Rel sharePath knownFiles isInitial listing →
  ∃ e x, e ∈ listing ∧ scan_entry Rel sharePath e = Some x
         ∧ event ∈ entry_events knownFiles isInitial (w_path e) x.
Proof.
  induction listing as [|e listing IH]; [by intros ?%elem_of_nil|].
  rewrite walk_events_cons. intros [Hin|Hin]%elem_of_app.
  - destruct (scan_entry Rel sharePath e) as [x|] eqn:He; [|by apply elem_of_nil in Hin].
    exists e, x. split_and!; [by apply elem_of_cons; left|done|done].
  - destruct (IH Hin) as (e' & x & He' & Hx & Hev). exists e', x.
    split_and!; [by apply elem_of_cons; right|done|done].
Qed.

Lemma snapshot_of_scanned sharePath listing e x :
  e ∈ listing → scan_entry Rel sharePath e = Some x →
  is_Some (snapshot_of Rel sharePath listing !! x.1).
Proof.
  intros He Hx. apply foldl_put_key, list_elem_of_fmap. exists x. split; [done|].
  apply list_elem_of_omap. by exists e.
Qed.

Lemma state_changed_same (state : FileState) : state_changed state state = false.
Proof. by apply state_changed_false. Qed.

(** In a steady state the walk has nothing to tell. *)
Lemma walk_events_steady sharePath knownFiles isInitial listing :
  (∀ x, x ∈ omap (scan_entry Rel sharePath) listing → knownFiles !! x.1 = Some x.2) →
  walk_events Rel sharePath knownFiles isInitial listing = [].
Proof.
  induction listing as [|e listing IH]; intros Hall; [done|].
  rewrite walk_events_cons. cbn [omap list_omap] in Hall.
  destruct (scan_entry Rel sharePath e) as [x|].
  - rewrite IH by (intros y Hy; apply Hall; by apply elem_of_cons; right).
    unfold entry_events. rewrite (Hall x) by (by apply elem_of_cons; left).
    by rewrite state_changed_same.
  - by apply IH.
Qed.

Lemma deleted_events_none cur l :
  (∀ kv, kv ∈ l → is_Some (cur !! kv.1)) → deleted_events cur l = [].
Proof.
  induction l as [|kv l IH]; intros Hall; [done|].
  rewrite deleted_events_cons.
  destruct (Hall kv) as [v ->]; [by apply elem_of_cons; left|].
  apply IH. intros kv' Hkv'. apply Hall. by apply elem_of_cons; right.
Qed.

(** X3. In a scan whose walk records each path once, a path of the
    current snapshot that the stored snapshot does not have gets exactly one
    event, a Created one carrying its current state, unless the scan is the
    initial one, where it gets none. *)
Theorem created_exactly_once fw listing sharePath knownFiles isInitial w p state :
  let r := scanFiles Rel ro fw listing sharePath knownFiles isInitial w in
  NoDup (scanned_paths Rel sharePath listing) →
  knownFiles !! p = None →
  current r !! p = Some state →
  ∃ fullPath,
    filter (λ event, RelPath event = p) (notified (bus r))
    = if isInitial then [] else [created_event p fullPath state].
Proof.
  intros r Hnd Hold Hcur. unfold r in *. clear r.
  rewrite scanFiles_current in Hcur. rewrite scanFiles_notified, filter_app.
  assert (filter (λ event, RelPath event = p)
            (if isInitial then []
             else deleted_events (snapshot_of Rel sharePath listing)
                    (range ro knownFiles)) = []) as ->.
  { destruct isInitial; [done|]. apply deleted_events_absent. right. by eexists. }
  rewrite app_nil_r.
  apply foldl_put_inv in Hcur as [Hin|Hempty]; [|by rewrite lookup_empty in Hempty].
  destruct (walk_events_once Rel sharePath knownFiles isInitial listing p state
              Hnd Hin) as [fullPath ->].
  exists fullPath. unfold entry_events. cbn [fst snd]. rewrite Hold.
  by destruct isInitial.
Qed.

(** X4. The walk of a scan never fails, and entries that carry an error,
    directories, and paths that cannot be made relative do not count: the
    scan is the scan of the listing without them. *)
Theorem scan_skips_unreadable fw listing sharePath knownFiles isInitial w :
  scanFiles Rel ro fw listing sharePath knownFiles isInitial w
  = scanFiles Rel ro fw
      (filter (λ e, w_err e = None ∧ info_IsDir (w_info e) = false
                    ∧ is_Some (Rel sharePath (w_path e))) listing)
      sharePath knownFiles isInitial w
  ∧ ∀ s, (Walk listing (visit Rel fw sharePath knownFiles isInitial) s).2 = None.
Proof.
  split.
  - rewrite !scanFiles_spec. unfold snapshot_of.
    by rewrite omap_scan_entry_filter, walk_events_filter.
  - intros [cur b]. by rewrite Walk_visit.
Qed.

(** X5. Scanning again a tree that has not changed tells nothing: with
    the stored snapshot a scan of the listing left, a further scan of the
    same listing (each path recorded once) notifies no event, leaves the
    subscribers' world alone and stores the same snapshot. *)
Theorem rescan_is_silent fw listing sharePath knownFiles isInitial w w' :
  let r := scanFiles Rel ro fw listing sharePath knownFiles isInitial w in
  let r' := scanFiles Rel ro fw listing sharePath (known r) false w' in
  NoDup (scanned_paths Rel sharePath listing) →
  notified (bus r') = [] ∧ delivered (bus r') = [] ∧ world (bus r') = w'
  ∧ known r' = known r.
Proof.
  intros r r' Hnd.
  assert (bus r' = {| world := w'; notified := []; delivered := [] |}) as Hbus.
  { unfold r', r. rewrite scanFiles_known. rewrite scanFiles_spec. cbn [bus].
    rewrite walk_events_steady.
    - rewrite deleted_events_none; [done|].
      intros [k v] Hkv. apply range_elem_of in Hkv. by eexists.
    - intros [k v] Hx. by apply foldl_put_in. }
  rewrite Hbus. split_and!; try done.
  unfold r', r. by rewrite !scanFiles_known.
Qed.

(** X6. Every event of a scan is justified by the two snapshots: a
    Created event names a path of the current snapshot that was not stored
    (and the scan is not the initial one); a Modified event names a path of
    both whose stored state differs from the size and time the event
    carries; a Deleted event names a stored path that the current snapshot
    lacks (and the scan is not the initial one) and carries nothing else. *)
Theorem events_are_sound fw listing sharePath knownFiles isInitial w event :
  let r := scanFiles Rel ro fw listing sharePath knownFiles isInitial w in
  event ∈ notified (bus r) →
  (ChangeType event = "created" ∧ isInitial = false
   ∧ knownFiles !! RelPath event = None ∧ is_Some (current r !! RelPath event))
  ∨ (ChangeType event = "modified"
     ∧ is_Some (current r !! RelPath event)
     ∧ ∃ oldState, knownFiles !! RelPath event = Some oldState
         ∧ state_changed oldState
             {| st_ModTime := ModTime event; st_Size := Size event |} = true)
  ∨ (event = deleted_event (RelPath event) ∧ isInitial = false
     ∧ is_Some (knownFiles !! RelPath event) ∧ current r !! RelPath event = None).
Proof.
  intros r. unfold r. rewrite scanFiles_notified, scanFiles_current.
  intros [Hin|Hin]%elem_of_app.
  - apply walk_events_elem_of in Hin as (e & x & He & Hx & Hev).
    pose proof (snapshot_of_scanned _ _ _ _ He Hx) as Hcur.
    unfold entry_events in Hev.
    destruct (knownFiles !! x.1) as [oldState|] eqn:Hold.
    + destruct (state_changed oldState x.2) eqn:Hch; [|by apply elem_of_nil in Hev].
      apply list_elem_of_singleton in Hev. subst event. right. left.
      cbn [modified_event ChangeType RelPath ModTime Size].
      split_and!; [done|done|]. exists oldState. split; [done|].
      by destruct x as [k [t sz]].
    + destruct isInitial; cbn [negb] in Hev; [by apply elem_of_nil in Hev|].
      apply list_elem_of_singleton in Hev. subst event. left.
      cbn [created_event ChangeType RelPath]. done.
  - destruct isInitial; [by apply elem_of_nil in Hin|].
    pose proof (deleted_events_all_deleted
                  (snapshot_of Rel sharePath listing) (range ro knownFiles)) as Hall.
    rewrite Forall_forall in Hall. destruct (Hall _ Hin) as (_ & Hk & Hc).
    right. right. split_and!; [|done|by apply (range_key ro)|done].
    unfold deleted_events in Hin. apply list_elem_of_omap in Hin as (kv & _ & Hkv).
    destruct (snapshot_of Rel sharePath listing !! kv.1); [done|].
    injection Hkv as <-. done.
Qed.

(** X7. Nothing is buffered or dropped: the subscribers' world after a
    scan is the world before it, run through every subscriber for every
    event notified, event after event; and each notified event is handed to
    each subscriber. *)
Theorem scan_delivers_every_event fw listing sharePath knownFiles isInitial w :
  let r := scanFiles Rel ro fw listing sharePath knownFiles isInitial w in
  world (bus r)
  = foldl (λ w event,
             foldl (λ w (h : @FileChangeHandler W), h event w) w (subscribers fw))
          w (notified (bus r))
  ∧ delivered (bus r)
    = flat_map (λ event, (λ i, (i, event)) <$> seq 1 (List.length (subscribers fw)))
               (notified (bus r)).
Proof.
  intros r. unfold r. rewrite scanFiles_notified, scanFiles_spec. cbn [bus].
  rewrite notify_all_world, notify_all_delivered. cbn [world delivered app].
  split; [done|]. apply flat_map_ext. intros event. unfold deliveries.
  apply imap_pair_numbers.
Qed.

Lemma poll_ticks fw ticks (ps : @PollState W) prev0 :
  poll_known ps = snapshot_of Rel (Path fw) prev0 →
  ∃ evs,
    poll_events (foldl (poll_scan Rel ro fw false) ps ticks) = poll_events ps ++ evs
    ∧ List.length evs = List.length ticks
    ∧ poll_known (foldl (poll_scan Rel ro fw false) ps ticks)
      = snapshot_of Rel (Path fw) (default prev0 (last ticks))
    ∧ ∀ i prev cur,
        (prev0 :: ticks) !! i = Some prev → ticks !! i = Some cur →
        ∃ w', evs !! i
              = Some (notified (bus (scanFiles Rel ro fw cur (Path fw)
                                       (snapshot_of Rel (Path fw) prev) false w'))).
Proof.
  revert ps prev0. induction ticks as [|t ticks IH]; intros ps prev0 Hknown.
  - exists []. rewrite app_nil_r. split_and!; done.
  - cbn [foldl].
    destruct (IH (poll_scan Rel ro fw false ps t) t) as (evs & Hev & Hlen & Hk & Hticks).
    { unfold poll_scan. cbn [poll_known]. apply scanFiles_known. }
    eexists (_ :: evs). split_and!.
    + rewrite Hev. unfold poll_scan at 1. cbn [poll_events].
      by rewrite <- app_assoc.
    + cbn. by rewrite Hlen.
    + rewrite Hk. f_equal. rewrite last_cons. by destruct (last ticks).
    + intros [|i] prev cur Hprev Hcur; cbn in Hprev, Hcur.
      * injection Hprev as <-. injection Hcur as <-.
        exists (poll_world ps). cbn. by rewrite Hknown.
      * by apply (Hticks i).
Qed.

(** X9. After the initial scan and any number of ticks, [pollloop] holds
    the snapshot of the last listing it scanned and has one list of events
    per scan; the events of a tick are those of a scan that is not initial,
    of that tick's listing against the snapshot of the listing before. *)
Theorem pollloop_tracks_last_listing fw initial ticks w :
  let ps := pollloop Rel ro fw initial ticks w in
  poll_known ps = snapshot_of Rel (Path fw) (default initial (last ticks))
  ∧ List.length (poll_events ps) = S (List.length ticks)
  ∧ ∀ i prev cur,
      (initial :: ticks) !! i = Some prev → ticks !! i = Some cur →
      ∃ w', poll_events ps !! S i
            = Some (notified (bus (scanFiles Rel ro fw cur (Path fw)
                                     (snapshot_of Rel (Path fw) prev) false w'))).
Proof.
  intros ps. unfold ps, pollloop.
  set (ps0 := poll_scan Rel ro fw true _ initial).
  destruct (poll_ticks fw ticks ps0 initial) as (evs & Hev & Hlen & Hk & Hticks).
  { unfold ps0, poll_scan. cbn [poll_known]. apply scanFiles_known. }
  rewrite Hev, Hk. unfold ps0, poll_scan. cbn [poll_events app].
  split_and!; [done|by cbn; rewrite Hlen|].
  intros i prev cur Hprev Hcur. by apply (Hticks i).
Qed.

End detector_more.

(** X8. The order in which Go enumerates a map shows in one place only:
    two runs of the same scan store the same snapshot and notify the same
    events of the walk in the same order, followed by the same Deleted
    events, possibly in another order. *)
Theorem map_order_only_permutes_deletions {W : Type}
    (Rel : string → string → option string) (ro1 ro2 : RangeOrder)
    (fw : @FileWatcher W) (listing : list WalkEntry) sharePath
    (knownFiles : gmap string FileState) isInitial (w : W) :
  let r1 := scanFiles Rel ro1 fw listing sharePath knownFiles isInitial w in
  let r2 := scanFiles Rel ro2 fw listing sharePath knownFiles isInitial w in
  known r1 = known r2
  ∧ ∃ walk_evs del1 del2,
      notified (bus r1) = walk_evs ++ del1
      ∧ notified (bus r2) = walk_evs ++ del2
      ∧ del1 ≡ₚ del2
      ∧ Forall (λ event, ChangeType event ≠ "deleted") walk_evs
      ∧ Forall (λ event, ChangeType event = "deleted") del1.
Proof.
  intros r1 r2. unfold r1, r2. rewrite !scanFiles_known, !scanFiles_notified.
  split; [done|].
  eexists _, _, _. split_and!; [done|done| | |].
  - destruct isInitial; [done|]. unfold deleted_events.
    by rewrite !range_perm.
  - eapply Forall_impl; [apply walk_events_not_deleted|].
    intros event [->| ->]; done.
  - destruct isInitial; [by constructor|].
    eapply Forall_impl; [apply deleted_events_all_deleted|]. by intros event [? _].
Qed.


(** Witnesses of the further properties of the watcher. *)

Lemma created_exactly_once_witness :
  ∃ fullPath,
    filter (λ event, RelPath event = "a.txt")
      (notified (bus (scanFiles filepath.Rel_under range_canonical sample.watcher
                        sample.tree_100 sample.share ∅ false [])))
    = [created_event "a.txt" fullPath {| st_ModTime := sample.t0; st_Size := 100 |}].
Proof.
  apply (created_exactly_once filepath.Rel_under range_canonical sample.watcher
           sample.tree_100 sample.share ∅ false [] "a.txt"
           {| st_ModTime := sample.t0; st_Size := 100 |}).
  - apply (bool_decide_unpack _). vm_compute. exact I.
  - reflexivity.
  - vm_compute. reflexivity.
Defined.

Lemma rescan_is_silent_witness :
  notified (bus (scanFiles filepath.Rel_under range_canonical sample.watcher
                   sample.tree_150 sample.share
                   (known (scanFiles filepath.Rel_under range_canonical sample.watcher
                             sample.tree_150 sample.share sample.known_100 false []))
                   false ["modified a.txt"])) = []
  ∧ known (scanFiles filepath.Rel_under range_canonical sample.watcher
             sample.tree_150 sample.share sample.known_100 false [])
    = sample.known_150.
Proof.
  split.
  - apply (rescan_is_silent filepath.Rel_under range_canonical sample.watcher
             sample.tree_150 sample.share sample.known_100 false [] ["modified a.txt"]).
    apply (bool_decide_unpack _). vm_compute. exact I.
  - vm_compute. reflexivity.
Defined.

Lemma events_are_sound_witness :
  is_Some (sample.known_150 !! "a.txt")
  ∧ current (scanFiles filepath.Rel_under range_canonical sample.watcher
               sample.tree_gone sample.share sample.known_150 false []) !! "a.txt"
    = None.
Proof.
  destruct (events_are_sound filepath.Rel_under range_canonical sample.watcher
              sample.tree_gone sample.share sample.known_150 false []
              (deleted_event "a.txt"))
    as [(Hty & _)|[(Hty & _)|(_ & _ & Hknown & Hcur)]].
  - apply (bool_decide_unpack _). vm_compute. exact I.
  - discriminate Hty.
  - discriminate Hty.
  - split; [exact Hknown|exact Hcur].
Defined.

(** * Further properties of the supervisor *)

Section supervisor_more.
Variable Rel : string → string → option string.
Implicit Types (os : OS) (d : Deployer) (event : FileChangeEvent).

(** The three ways [Kill] can end. *)
Lemma Kill_cases os d :
  Kill os d = (d, None, [])
  ∨ (∃ cmd p err,
       currentCmd d = Some cmd ∧ cmd_Process cmd = Some p
       ∧ is_Some (proc_Signal os p SIGTERM) ∧ proc_Kill os p = Some err
       ∧ Kill os d = (d, Some ("failed to kill process: " +:+ err),
                      [ASignal p SIGTERM; AKill p]))
  ∨ (∃ cmd p,
       currentCmd d = Some cmd ∧ cmd_Process cmd = Some p
       ∧ (proc_Signal os p SIGTERM = None ∨ proc_Kill os p = None)
       ∧ (Kill os d).1
         = ({| MountLocation := MountLocation d; Config := Config d;
               currentCmd := None; isRunning := false |}, None)
       ∧ (Kill os d).2
         = ASignal p SIGTERM
           :: match proc_Signal os p SIGTERM with
              | Some _ => [AKill p]
              | None => []
              end
           ++ AWait cmd (5 * Second)
           :: (if cmd_Wait_within os cmd (5 * Second) then [] else [AKill p])).
Proof.
  unfold Kill. destruct (currentCmd d) as [cmd|] eqn:Hcmd; [|by left].
  destruct (cmd_Process cmd) as [p|] eqn:Hproc; [|by left]. right.
  rewrite bind_act. destruct (proc_Signal os p SIGTERM) as [e1|] eqn:Hsig.
  - rewrite bind_act. destruct (proc_Kill os p) as [e2|] eqn:Hkill.
    + left. exists cmd, p, e2. split_and!; rewrite ?Hsig, ?Hkill; try done; by eexists.
    + right. exists cmd, p. cbn [fst snd]. rewrite Kill_wait_result, Kill_wait_trace.
      split_and!; rewrite ?Hsig, ?Hkill; try done; by right.
  - right. exists cmd, p. cbn [fst snd]. rewrite Kill_wait_result, Kill_wait_trace.
    split_and!; rewrite ?Hsig; try done; by left.
Qed.

Lemma Deploy_keeps_config os d :
  MountLocation (Deploy Rel os d).1.1 = MountLocation d
  ∧ Config (Deploy Rel os d).1.1 = Config d.
Proof.
  rewrite Deploy_spec.
  destruct (copyDir Rel os _ _).1; [done|].
  by destruct (cmd_Start os (deploy_cmd os d)).
Qed.

Lemma Kill_keeps_config os d :
  MountLocation (Kill os d).1.1 = MountLocation d
  ∧ Config (Kill os d).1.1 = Config d.
Proof.
  destruct (Kill_cases os d) as [->|[(cmd & p & err & _ & _ & _ & _ & ->)
                                   |(cmd & p & _ & _ & _ & -> & _)]]; done.
Qed.

Lemma Redeploy_spec os d :
  Redeploy Rel os d
  = ((Deploy Rel os (Kill os d).1.1).1,
     (Kill os d).2 ++ ASleep (500 * Millisecond)
       :: (Deploy Rel os (Kill os d).1.1).2).
Proof.
  unfold Redeploy. destruct (Kill os d) as [k t1]. cbn [bind act fst snd].
  destruct (Deploy Rel os k.1) as [r t2]. cbn [fst snd]. done.
Qed.

Lemma deploy_cmd_config os d d' :
  Config d' = Config d → deploy_cmd os d' = deploy_cmd os d.
Proof. unfold deploy_cmd. by intros ->. Qed.

Lemma Redeploy_keeps_config os d :
  MountLocation (Redeploy Rel os d).1.1 = MountLocation d
  ∧ Config (Redeploy Rel os d).1.1 = Config d.
Proof.
  rewrite Redeploy_spec. cbn [fst].
  destruct (Deploy_keeps_config os (Kill os d).1.1) as [-> ->].
  apply Kill_keeps_config.
Qed.

(** X10. The loader reads one file, [deploy.json] under the share; a
    configuration that is read and parsed is returned whatever the flag; a
    failure panics when the flag is set and gives nil when it is not. *)
Theorem LoadDeployConfig_modes os share panicOnFailure :
  let loaded :=
    match os_ReadFile os (filepath.Join [share; CONFIG_ID]) with
    | Ok data =>
        match json_Unmarshal os data with Ok config => Some config | Err _ => None end
    | Err _ => None
    end in
  (LoadDeployConfig os share panicOnFailure).2
  = [AReadFile (filepath.Join [share; CONFIG_ID])]
  ∧ match loaded with
    | Some config =>
        (LoadDeployConfig os share panicOnFailure).1 = Returned (Some config)
    | None =>
        if panicOnFailure
        then ∃ msg, (LoadDeployConfig os share panicOnFailure).1 = Panicked msg
        else (LoadDeployConfig os share panicOnFailure).1 = Returned None
    end.
Proof.
  unfold LoadDeployConfig, read_config. rewrite bind_fst, bind_snd, bind_act.
  cbn [fst snd].
  destruct (os_ReadFile os _) as [data|err]; cbn [ret fst snd].
  - destruct (json_Unmarshal os data) as [config|err]; cbn [ret fst snd].
    + done.
    + destruct panicOnFailure; cbn; split; eauto.
  - destruct panicOnFailure; cbn; split; eauto.
Qed.

(** X11. A supervisor that [NewDeployer] returns is idle: it has the
    mount location asked for, no handle and the running flag unset, so a
    [Kill] on it calls nothing; and [NewDeployer] returns one only when the
    configuration file was read and parsed, with that configuration. *)
Theorem NewDeployer_is_idle os os' mountLocation d :
  (NewDeployer os mountLocation).1 = Returned d →
  MountLocation d = mountLocation
  ∧ currentCmd d = None ∧ isRunning d = false
  ∧ (∃ data, os_ReadFile os (filepath.Join [mountLocation; CONFIG_ID]) = Ok data
             ∧ json_Unmarshal os data = Ok (Config d))
  ∧ Kill os' d = (d, None, []).
Proof.
  unfold NewDeployer, LoadDeployConfig, read_config.
  rewrite !bind_fst. cbn [act fst].
  destruct (os_ReadFile os _) as [data|err] eqn:Hread; cbn [ret fst]; [|done].
  destruct (json_Unmarshal os data) as [config|err] eqn:Hparse; cbn [ret fst]; [|done].
  intros [= <-]. split_and!; try done. by exists data.
Qed.

(** X12. [Redeploy] deploys whatever [Kill] answered: it returns nil
    exactly when the copy and the start succeed, and then the handle is
    the process just started and the running flag is set, also when the
    previous process could not be killed. Its calls are those of [Kill],
    one pause of 500 ms, the calls of one copy and, when the copy
    succeeded, one start, followed by the monitor when the start
    succeeded; nothing else. *)
Theorem Redeploy_records_new_process os d :
  let copied :=
    copyDir Rel os (filepath.Join [MountLocation d; SourceLocation (Config d)])
            (DeployLocation (Config d)) in
  ((Redeploy Rel os d).1.2 = None ↔
     copied.1 = None ∧ ∃ p, cmd_Start os (deploy_cmd os d) = Ok p)
  ∧ (∀ p, copied.1 = None → cmd_Start os (deploy_cmd os d) = Ok p →
       (Redeploy Rel os d).1.1
       = {| MountLocation := MountLocation d; Config := Config d;
            currentCmd := Some (started (deploy_cmd os d) p); isRunning := true |})
  ∧ (Redeploy Rel os d).2
    = (Kill os d).2 ++ ASleep (500 * Millisecond) :: copied.2
      ++ match copied.1 with
         | Some _ => []
         | None =>
             AStart (deploy_cmd os d)
             :: match cmd_Start os (deploy_cmd os d) with
                | Ok p => [AMonitor p]
                | Err _ => []
                end
         end
  ∧ (Redeploy Rel os d).1 = (Deploy Rel os (Kill os d).1.1).1.
Proof.
  intros copied. rewrite Redeploy_spec. cbn [fst snd]. rewrite Deploy_spec.
  destruct (Kill_keeps_config os d) as [Hm Hc].
  rewrite Hm, Hc, (deploy_cmd_config os d _ Hc). fold copied.
  destruct copied.1 as [err|] eqn:Hcopy.
  - split_and!.
    + split; [done|]. by intros [? _].
    + done.
    + by rewrite app_nil_r.
    + done.
  - destruct (cmd_Start os (deploy_cmd os d)) as [p|err] eqn:Hstart; cbn [fst snd].
    + split_and!.
      * split; [intros _; split; [done|by exists p]|done].
      * by intros ? _ [= <-].
      * done.
      * done.
    + split_and!.
      * split; [done|]. by intros [_ [? ?]].
      * done.
      * done.
      * done.
Qed.

(** X13. The gap after a failed deployment: when [Kill] stops the current
    process and the copy or the start then fails, [Redeploy] returns the
    error and the supervisor is left without a process, handle cleared and
    running flag unset. *)
Theorem Redeploy_failure_leaves_idle os d cmd p :
  let copied :=
    copyDir Rel os (filepath.Join [MountLocation d; SourceLocation (Config d)])
            (DeployLocation (Config d)) in
  currentCmd d = Some cmd →
  cmd_Process cmd = Some p →
  proc_Signal os p SIGTERM = None ∨ proc_Kill os p = None →
  is_Some copied.1 ∨ (∃ err, cmd_Start os (deploy_cmd os d) = Err err) →
  ∃ err,
    (Redeploy Rel os d).1
    = ({| MountLocation := MountLocation d; Config := Config d;
          currentCmd := None; isRunning := false |}, Some err).
Proof.
  intros copied Hcmd Hproc Hkill Hfail. rewrite Redeploy_spec. cbn [fst].
  assert ((Kill os d).1.1
          = {| MountLocation := MountLocation d; Config := Config d;
               currentCmd := None; isRunning := false |}) as ->.
  { destruct (Kill_cases os d)
      as [Hk|[(cmd' & p' & err & Hc' & Hp' & Hs & Hkl & _)|(cmd' & p' & _ & _ & _ & -> & _)]].
    - unfold Kill in Hk. rewrite Hcmd, Hproc, bind_act in Hk. by injection Hk.
    - rewrite Hcmd in Hc'. injection Hc' as <-. rewrite Hproc in Hp'.
      injection Hp' as <-. destruct Hkill as [Hn|Hn]; rewrite Hn in *;
        [by destruct Hs|done].
    - done. }
  rewrite Deploy_spec. cbn [MountLocation Config]. fold copied.
  rewrite (deploy_cmd_config os d) by done.
  destruct copied.1 as [err|]; [by eexists|].
  destruct Hfail as [[? ?]|[err ->]]; [done|]. by eexists.
Qed.

(** X14. A [Kill] that returned nil leaves nothing to kill: a second
    [Kill], whatever the operating system answers, returns nil, calls
    nothing and changes nothing. *)
Theorem Kill_twice os os' d :
  (Kill os d).1.2 = None →
  Kill os' (Kill os d).1.1 = ((Kill os d).1.1, None, []).
Proof.
  destruct (Kill_cases os d)
    as [Hk|[(cmd & p & err & _ & _ & _ & _ & ->)|(cmd & p & _ & _ & _ & Hk & _)]].
  - rewrite Hk. cbn [fst snd]. intros _.
    unfold Kill in *. destruct (currentCmd d) as [cmd|]; [|done].
    destruct (cmd_Process cmd) as [p|]; [|done].
    rewrite bind_act in Hk. by injection Hk.
  - done.
  - rewrite Hk. done.
Qed.

(** X15. [Kill] acts on the recorded process only: it keeps the mount
    location and the configuration, never records a handle and never sets
    the running flag; it makes at most four calls, each the termination
    signal or the forced termination of the recorded process, or the wait
    of five seconds for the recorded command; and it does not read the
    running flag, so it does the same after the exit monitor has run. *)
Theorem Kill_acts_on_recorded_process os d :
  MountLocation (Kill os d).1.1 = MountLocation d
  ∧ Config (Kill os d).1.1 = Config d
  ∧ ((Kill os d).1.1 = d ∨ (currentCmd (Kill os d).1.1 = None
                            ∧ isRunning (Kill os d).1.1 = false))
  ∧ (List.length (Kill os d).2 ≤ 4)%nat
  ∧ (∀ a, a ∈ (Kill os d).2 →
       ∃ cmd p, currentCmd d = Some cmd ∧ cmd_Process cmd = Some p
                ∧ (a = ASignal p SIGTERM ∨ a = AKill p
                   ∨ a = AWait cmd (5 * Second)))
  ∧ (Kill os (monitor_exit d)).2 = (Kill os d).2
  ∧ (Kill os (monitor_exit d)).1.2 = (Kill os d).1.2.
Proof.
  split_and!.
  - apply Kill_keeps_config.
  - apply Kill_keeps_config.
  - destruct (Kill_cases os d)
      as [->|[(cmd & p & err & _ & _ & _ & _ & ->)|(cmd & p & _ & _ & _ & -> & _)]];
      [by left|by left|by right].
  - destruct (Kill_cases os d)
      as [->|[(cmd & p & err & _ & _ & _ & _ & ->)|(cmd & p & _ & _ & _ & _ & ->)]];
      cbn [snd List.length]; [lia|lia|].
    destruct (proc_Signal os p SIGTERM), (cmd_Wait_within os cmd (5 * Second));
      cbn; lia.
  - intros a.
    destruct (Kill_cases os d)
      as [->|[(cmd & p & err & Hc & Hp & _ & _ & ->)|(cmd & p & Hc & Hp & _ & _ & ->)]];
      cbn [snd].
    + by intros ?%elem_of_nil.
    + intros Ha. exists cmd, p. split_and!; [done|done|].
      repeat (apply elem_of_cons in Ha as [->|Ha]; [by eauto|]).
      by apply elem_of_nil in Ha.
    + intros Ha. exists cmd, p. split_and!; [done|done|].
      destruct (proc_Signal os p SIGTERM), (cmd_Wait_within os cmd (5 * Second));
        cbn in Ha;
        repeat (apply elem_of_cons in Ha as [->|Ha]; [by eauto|]);
        by apply elem_of_nil in Ha.
  - unfold Kill, monitor_exit, Kill_wait, bind, act, ret. cbn [currentCmd].
    destruct (currentCmd d) as [cmd|]; [|done].
    destruct (cmd_Process cmd) as [p|]; [|done].
    by destruct (proc_Signal os p SIGTERM), (proc_Kill os p),
                (cmd_Wait_within os cmd (5 * Second)).
  - unfold Kill, monitor_exit, Kill_wait, bind, act, ret. cbn [currentCmd].
    destruct (currentCmd d) as [cmd|]; [|done].
    destruct (cmd_Process cmd) as [p|]; [|done].
    by destruct (proc_Signal os p SIGTERM), (proc_Kill os p),
                (cmd_Wait_within os cmd (5 * Second)).
Qed.

End supervisor_more.

Section supervisor_compose.
Variable Rel : string → string → option string.
Implicit Types (os : OS) (d : Deployer) (event : FileChangeEvent).
Implicit Types (e : WalkEntry) (before after : list WalkEntry).

Lemma copy_walk_first_error os src dst before e after err :
  (∀ e', e' ∈ before → (copy_entry Rel os src dst e').1 = None) →
  (copy_entry Rel os src dst e).1 = Some err →
  copy_walk Rel os src dst (before ++ e :: after)
  = (Some err,
     List.concat ((λ e', (copy_entry Rel os src dst e').2) <$> (before ++ [e]))).
Proof.
  intros Hbefore He. induction before as [|e0 before IH]; cbn [app copy_walk].
  - rewrite (surjective_pairing (bind _ _)), bind_fst, bind_snd, He.
    cbn. by rewrite !app_nil_r.
  - rewrite (surjective_pairing (bind _ _)), bind_fst, bind_snd.
    rewrite (Hbefore e0) by (by apply elem_of_cons; left).
    rewrite IH by (intros e' ?; apply Hbefore; by apply elem_of_cons; right).
    done.
Qed.

(** X16. The copy stops at the first entry that fails: when the
    destination can be made and an entry of the walk fails after entries
    that were copied, [copyDir] returns that entry's error, and its calls
    are the making of the destination followed by the calls of the entries
    up to the failing one; nothing is called for the entries after it. *)
Theorem copyDir_stops_at_first_error os src dst before e after err :
  os_MkdirAll os dst perm_0755 = None →
  os_Walk os src = before ++ e :: after →
  (∀ e', e' ∈ before → (copy_entry Rel os src dst e').1 = None) →
  (copy_entry Rel os src dst e).1 = Some err →
  copyDir Rel os src dst
  = (Some err,
     AMkdirAll dst perm_0755
     :: List.concat ((λ e', (copy_entry Rel os src dst e').2) <$> (before ++ [e]))).
Proof.
  intros Hmk Hwalk Hbefore He. rewrite copyDir_spec, Hmk, Hwalk.
  by rewrite (copy_walk_first_error os src dst before e after err).
Qed.

(** X17. Idle, running, idle: a [Deploy] that returns nil on an idle
    supervisor records a process that the next [Kill] signals first, and a
    [Kill] that then returns nil puts the supervisor back as it was. *)
Theorem Deploy_then_Kill_returns_to_idle os os' d :
  currentCmd d = None →
  isRunning d = false →
  (Deploy Rel os d).1.2 = None →
  ∃ p, cmd_Start os (deploy_cmd os d) = Ok p
       ∧ currentCmd (Deploy Rel os d).1.1 = Some (started (deploy_cmd os d) p)
       ∧ isRunning (Deploy Rel os d).1.1 = true
       ∧ head (Kill os' (Deploy Rel os d).1.1).2 = Some (ASignal p SIGTERM)
       ∧ ((Kill os' (Deploy Rel os d).1.1).1.2 = None →
          (Kill os' (Deploy Rel os d).1.1).1.1 = d).
Proof.
  intros Hcmd Hrun. rewrite Deploy_spec.
  destruct (copyDir Rel os _ _).1; [done|].
  destruct (cmd_Start os (deploy_cmd os d)) as [p|err]; [|done].
  cbn [fst snd]. intros _. exists p. split_and!; try done.
  - unfold Kill. cbn [currentCmd started cmd_Process]. by rewrite bind_act.
  - intros Hnil.
    destruct (Kill_cases os'
                {| MountLocation := MountLocation d; Config := Config d;
                   currentCmd := Some (started (deploy_cmd os d) p);
                   isRunning := true |})
      as [Hk|[(cmd & p' & err & _ & _ & _ & _ & Hk)|(cmd & p' & _ & _ & _ & Hk & _)]].
    + unfold Kill in Hk. cbn [currentCmd started cmd_Process] in Hk.
      rewrite bind_act in Hk. by injection Hk.
    + rewrite Hk in Hnil. done.
    + rewrite Hk. cbn. destruct d. cbn in *. by subst.
Qed.

(** X18. Handling an event never changes the mount location, and the
    configuration afterwards is the one before, or, for an event on the
    configuration file, the one just read and parsed from it: never a
    partial or failed load. *)
Theorem Handle_keeps_parsed_config os event d :
  MountLocation (Handle Rel os event d).1 = MountLocation d
  ∧ (Config (Handle Rel os event d).1 = Config d
     ∨ (RelPath event = CONFIG_ID
        ∧ ∃ data,
            os_ReadFile os (filepath.Join [MountLocation d; CONFIG_ID]) = Ok data
            ∧ json_Unmarshal os data = Ok (Config (Handle Rel os event d).1))).
Proof.
  unfold Handle. case_bool_decide as Hcfg.
  - rewrite !bind_fst. cbn [ret fst].
    destruct (Redeploy_keeps_config Rel os (reloadConfig os d).1) as [-> ->].
    rewrite reloadConfig_spec. cbn [MountLocation Config]. split; [done|].
    destruct (os_ReadFile os _) as [data|err] eqn:Hread; [|by left].
    destruct (json_Unmarshal os data) as [config|err] eqn:Hparse; [|by left].
    right. split; [done|]. by exists data.
  - destruct (isSourceFile d (RelPath event)).
    + rewrite !bind_fst. cbn [ret fst].
      destruct (Redeploy_keeps_config Rel os d) as [-> ->]. split; [done|by left].
    + split; [done|by left].
Qed.

End supervisor_compose.

(** Witnesses of the further properties of the supervisor. *)

Lemma NewDeployer_is_idle_witness :
  (NewDeployer sample.os_parsing sample.share).1 = Returned (sample.idle "app")
  ∧ Kill sample.os_gone (sample.idle "app") = (sample.idle "app", None, []).
Proof.
  split; [reflexivity|].
  apply (NewDeployer_is_idle sample.os_parsing sample.os_gone sample.share
           (sample.idle "app")).
  reflexivity.
Defined.

Lemma Redeploy_failure_leaves_idle_witness :
  ∃ err,
    (Redeploy filepath.Rel_under sample.os_no_start (sample.running "src")).1
    = (sample.idle "src", Some err).
Proof.
  apply (Redeploy_failure_leaves_idle filepath.Rel_under sample.os_no_start
           (sample.running "src") sample.child_cmd sample.child).
  - reflexivity.
  - reflexivity.
  - by left.
  - right. by eexists.
Defined.

Lemma Kill_twice_witness :
  Kill sample.os_gone (Kill sample.os_calm (sample.running "src")).1.1
  = (sample.idle "src", None, []).
Proof.
  apply (Kill_twice sample.os_calm sample.os_gone (sample.running "src")).
  reflexivity.
Defined.

Lemma copyDir_stops_at_first_error_witness :
  copyDir filepath.Rel_under sample.os_unreadable "/mnt/agent/src" "/opt/app"
  = (Some "open /mnt/agent/src/secret: permission denied",
     [AMkdirAll "/opt/app" perm_0755;
      AMkdirAll "/opt/app" (Z.lor ModeDir perm_0755)]).
Proof.
  apply (copyDir_stops_at_first_error filepath.Rel_under sample.os_unreadable
           "/mnt/agent/src" "/opt/app"
           [sample.dir_entry "/mnt/agent/src" perm_0755]
           {| w_path := "/mnt/agent/src/secret";
              w_info := {| info_IsDir := true; info_Mode := ModeDir;
                           info_Size := 0; info_ModTime := sample.t0 |};
              w_err := Some "open /mnt/agent/src/secret: permission denied" |}
           [sample.file_entry "/mnt/agent/src/run.sh" perm_0755 12 sample.t0]).
  - reflexivity.
  - reflexivity.
  - intros e' ->%list_elem_of_singleton. reflexivity.
  - reflexivity.
Defined.

Lemma Deploy_then_Kill_returns_to_idle_witness :
  (Deploy filepath.Rel_under sample.os_calm (sample.idle "src")).1.2 = None
  ∧ ∃ p, head (Kill sample.os_calm
                 (Deploy filepath.Rel_under sample.os_calm (sample.idle "src")).1.1).2
         = Some (ASignal p SIGTERM)
         ∧ (Kill sample.os_calm
              (Deploy filepath.Rel_under sample.os_calm (sample.idle "src")).1.1).1.1
           = sample.idle "src".
Proof.
  split; [by vm_compute|].
  destruct (Deploy_then_Kill_returns_to_idle filepath.Rel_under sample.os_calm
              sample.os_calm (sample.idle "src"))
    as (p & _ & _ & _ & Hhead & Hback).
  - reflexivity.
  - reflexivity.
  - by vm_compute.
  - exists p. split; [exact Hhead|]. apply Hback. by vm_compute.
Defined.

(** The lexical helpers and the command on concrete names. *)
Example Command_looks_up_bare_names :
  cmd_Path (Command (exec_LookPath sample.os_calm) "python3" ["main.py"])
  = "/usr/bin/python3"
  ∧ cmd_Args (Command (exec_LookPath sample.os_calm) "python3" ["main.py"])
    = ["python3"; "main.py"]
  ∧ cmd_Path (Command (exec_LookPath sample.os_calm) "./run.sh" []) = "./run.sh"
  ∧ cmd_Path (Command (λ _, ("", Some "not found")) "python3" []) = "python3"
  ∧ map filepath.Base [""; "/"; "a/b/"; "run.sh"; "./run.sh"]
    = ["."; "/"; "b"; "run.sh"; "run.sh"]
  ∧ filepath.Rel_under "." "a/b" = Some "a/b"
  ∧ filepath.Rel_under "/" "/a/b" = Some "a/b"
  ∧ filepath.Rel_under "/mnt/agent" "/mnt/agent" = Some "."
  ∧ filepath.Rel_under "/mnt/agent" "/mnt/agent/src/x" = Some "src/x".
Proof. vm_compute. done. Qed.
